(** * Neptune.js: the Entity-Component tree of [src/basic/entity.js]

    A shallow embedding of class [Entity] and the properties of its
    component attachment, hierarchy mutation, child queries and lifecycle
    propagation.

    Entities are JavaScript objects compared by reference, so they live in a
    store indexed by locations; methods are computations over that store in a
    state-and-exception monad.  Arrays are lists, indexed the way the source
    indexes them (the result of [findIndex] is an integer that may be [-1]).
    [Array.prototype.forEach] is modelled as ECMAScript defines it: the length
    is read once, and each index is looked up in the array as it is at that
    moment. *)

From Stdlib Require Import List String Arith Bool ZArith Lia.
Import ListNotations.
Open Scope string_scope.
Open Scope list_scope.

(** ** Classes and [instanceof] *)

(** A class declaration, [class K] or [class K extends S]: its name and the
    class it extends.  A class value therefore carries its whole prototype
    chain. *)
Inductive cls : Type :=
| Class (cname : string)
| Extends (cname : string) (super : cls).

(** Two class values are the same class object. *)
Fixpoint cls_eqb (a b : cls) : bool :=
  match a, b with
  | Class n1, Class n2 => String.eqb n1 n2
  | Extends n1 s1, Extends n2 s2 => String.eqb n1 n2 && cls_eqb s1 s2
  | _, _ => false
  end.

(** [inherits k type]: [type.prototype] is on the prototype chain of the
    instances of [k], that is, [type] is [k] or one of the classes [k]
    extends, directly or not. *)
Fixpoint inherits (k type : cls) : bool :=
  cls_eqb k type ||
  match k with
  | Extends _ super => inherits super type
  | Class _ => false
  end.

(** ** Data model *)

Definition loc := nat.

(** A component object: its identity, the class it was constructed from
    ([component.constructor]) and the back reference [component.entity]. *)
Record Component : Type := mkComponent {
  comp_id : nat;
  constructor : cls;
  entity : option loc
}.

(** [component instanceof type] *)
Definition instanceof (component : Component) (type : cls) : bool :=
  inherits (constructor component) type.

(** The fields the constructor of [Entity] initialises. *)
Record Entity : Type := mkEntity {
  _name : string;
  _children : list loc;
  _parent : option loc;
  _components : list Component
}.

(** [new Entity(name)] *)
Definition Entity_new (name : string) : Entity :=
  {| _name := name; _children := []; _parent := None; _components := [] |}.

(** What the program does that is visible from outside the tree: the
    lifecycle hooks it calls on components and its [console.warn] lines. *)
Inductive event : Type :=
| CompInit (component : Component)
| CompUpdate (component : Component)
| CompDestroy (component : Component)
| Warn (msg : string).

Definition heap := loc -> Entity.

Record state : Type := mkState {
  st_heap : heap;
  st_trace : list event
}.

(** Every location holds a freshly constructed entity. *)
Definition fresh_heap : heap := fun _ => Entity_new "Entity".
Definition fresh_state : state := mkState fresh_heap [].

Definition upd (h : heap) (l : loc) (e : Entity) : heap :=
  fun l' => if Nat.eqb l' l then e else h l'.

Definition set_children (e : Entity) (cs : list loc) : Entity :=
  {| _name := _name e; _children := cs; _parent := _parent e;
     _components := _components e |}.
Definition set_parent (e : Entity) (p : option loc) : Entity :=
  {| _name := _name e; _children := _children e; _parent := p;
     _components := _components e |}.
Definition set_components (e : Entity) (cs : list Component) : Entity :=
  {| _name := _name e; _children := _children e; _parent := _parent e;
     _components := cs |}.
Definition set_entity (c : Component) (owner : loc) : Component :=
  {| comp_id := comp_id c; constructor := constructor c; entity := Some owner |}.

(** ** The monad of methods *)

(** A call returns a value, or throws.  [TypeError] is the dereference of
    [null] or [undefined]; [RangeError] is the exhaustion of the call stack,
    whose depth is the fuel of the recursive methods.  Either way the store is
    left as it was when the exception was thrown. *)
Inductive result (A : Type) : Type :=
| Ok (a : A) (s : state)
| TypeError (s : state)
| RangeError (s : state).
Arguments Ok {A} a s.
Arguments TypeError {A} s.
Arguments RangeError {A} s.

Definition M (A : Type) : Type := state -> result A.

Definition ret {A} (a : A) : M A := fun s => Ok a s.
Definition bind {A B} (m : M A) (k : A -> M B) : M B :=
  fun s => match m s with
           | Ok a s' => k a s'
           | TypeError s' => TypeError s'
           | RangeError s' => RangeError s'
           end.
Definition throwTypeError {A} : M A := fun s => TypeError s.

Notation "x <- m ;; k" := (bind m (fun x => k))
  (at level 61, m at next level, right associativity).
Notation "m ;;; k" := (bind m (fun _ => k))
  (at level 61, right associativity).

Definition emit (e : event) : M unit :=
  fun s => Ok tt (mkState (st_heap s) (st_trace s ++ [e])).
Definition console_warn (msg : string) : M unit := emit (Warn msg).

Definition read {A} (f : Entity -> A) (l : loc) : M A :=
  fun s => Ok (f (st_heap s l)) s.
Definition write (l : loc) (f : Entity -> Entity) : M unit :=
  fun s => Ok tt (mkState (upd (st_heap s) l (f (st_heap s l))) (st_trace s)).

(** ** Arrays *)

(** [arr.findIndex(p)]: the first index whose element satisfies [p], or -1. *)
Fixpoint findIndex_from {A} (p : A -> bool) (l : list A) (k : Z) : Z :=
  match l with
  | [] => (-1)%Z
  | x :: r => if p x then k else findIndex_from p r (k + 1)%Z
  end.
Definition findIndex {A} (p : A -> bool) (l : list A) : Z := findIndex_from p l 0.

(** [arr[i]]: [None] stands for [undefined]. *)
Definition array_get {A} (l : list A) (i : Z) : option A :=
  if (i <? 0)%Z then None else nth_error l (Z.to_nat i).

Fixpoint remove_at {A} (l : list A) (k : nat) : list A :=
  match l, k with
  | [], _ => []
  | _ :: r, O => r
  | x :: r, S k' => x :: remove_at r k'
  end.

(** [arr.splice(i, 1)]: a negative start counts from the end. *)
Definition splice1 {A} (l : list A) (i : Z) : list A :=
  let len := Z.of_nat (List.length l) in
  let start := if (i <? 0)%Z then Z.max (len + i) 0 else Z.min i len in
  remove_at l (Z.to_nat start).

(** [arr.forEach(callback)].  [arr] reads the array object out of the current
    store, so that a callback that changes the array is seen by the loop; [acc]
    carries the local variables that the callback closes over and assigns.
    The value the callback returns is dropped. *)
Fixpoint forEach_loop {A B} (arr : state -> list A) (callback : B -> A -> M B)
    (k n : nat) (acc : B) : M B :=
  match n with
  | O => ret acc
  | S n' => fun s =>
      match nth_error (arr s) k with
      | Some kValue =>
          (acc' <- callback acc kValue ;; forEach_loop arr callback (S k) n' acc') s
      | None => forEach_loop arr callback (S k) n' acc s
      end
  end.

Definition forEach {A B} (arr : state -> list A) (callback : B -> A -> M B)
    (acc : B) : M B :=
  fun s => forEach_loop arr callback 0 (List.length (arr s)) acc s.

Definition children_of (this : loc) : state -> list loc :=
  fun s => _children (st_heap s this).
Definition components_of (this : loc) : state -> list Component :=
  fun s => _components (st_heap s this).

(** ** Methods of [Entity] *)

Definition getComponent (this : loc) (type : cls) : M (option Component) :=
  read (fun e => find (fun component => instanceof component type) (_components e)) this.

Definition hasComponent (this : loc) (type : cls) : M bool :=
  read (fun e => existsb (fun component => instanceof component type) (_components e)) this.

Definition getChildren (this : loc) : M (list loc) := read _children this.
Definition getParent (this : loc) : M (option loc) := read _parent this.

Definition removeComponent (this : loc) (type : cls) : M unit :=
  index <- read (fun e => findIndex (fun component => instanceof component type)
                            (_components e)) this ;;
  if (index >? -1)%Z
  then write this (fun e => set_components e (splice1 (_components e) index))
  else console_warn "Component not found".

(** Components are kept by value in the list of their node, with the back
    reference that the call sets.  A component object attached to two nodes,
    which would show its last owner from both, is outside this model. *)
Definition addComponent (this : loc) (component : Component) : M unit :=
  has <- hasComponent this (constructor component) ;;
  if negb has
  then write this (fun e => set_components e
                              (_components e ++ [set_entity component this]))
  else console_warn "Component already attached".

(** The constructor sets [_children] to an array and no method assigns the
    field again, so the [== null] branch of the source never runs. *)
Definition addChild (this : loc) (child : loc) : M unit :=
  includes <- read (fun e => existsb (Nat.eqb child) (_children e)) this ;;
  if negb includes
  then write child (fun e => set_parent e (Some this)) ;;;
       write this (fun e => set_children e (_children e ++ [child]))
  else console_warn "Child already attached".

Definition removeChild (this : loc) (child : loc) : M unit :=
  index <- read (fun e => findIndex (fun c => Nat.eqb c child) (_children e)) this ;;
  entry <- read (fun e => array_get (_children e) index) this ;;
  match entry with
  | None => throwTypeError
  | Some c => write c (fun e => set_parent e None)
  end ;;;
  if (index >? -1)%Z
  then write this (fun e => set_children e (splice1 (_children e) index))
  else ret tt.

Definition getComponentinChildren (this : loc) (type : cls) : M (option Component) :=
  _ <- forEach (children_of this)
         (fun (component : option Component) child =>
            has <- hasComponent child type ;;
            if has then getComponent child type else ret component)
         None ;;
  ret None.

(** The array that is returned holds what [getComponent] returned, which the
    type allows to be [undefined] ([None]). *)
Definition getComponentsInChildren (this : loc) (type : cls)
  : M (list (option Component)) :=
  forEach (children_of this)
    (fun (components : list (option Component)) child =>
       has <- hasComponent child type ;;
       if has
       then found <- getComponent child type ;;
            ret (components ++ [found])
       else ret components)
    [].

Definition getChildWithComponent (this : loc) (type : cls) : M (list loc) :=
  fun s => Ok (filter (fun child =>
                 existsb (fun component => instanceof component type)
                         (_components (st_heap s child)))
               (_children (st_heap s this))) s.

Definition getChildrenWithComponent (this : loc) (type : cls) : M (list loc) :=
  forEach (children_of this)
    (fun (children : list loc) child =>
       has <- hasComponent child type ;;
       if has then ret (children ++ [child]) else ret children)
    [].

(** The lifecycle hooks of a component belong to the component; all the tree
    sees of them is that they are called. *)
Definition Component_Init (component : Component) : M unit := emit (CompInit component).
Definition Component_Update (component : Component) : M unit := emit (CompUpdate component).
Definition Component_Destroy (component : Component) : M unit := emit (CompDestroy component).

Fixpoint Init (fuel : nat) (this : loc) : M unit :=
  match fuel with
  | O => fun s => RangeError s
  | S fuel' =>
      forEach (components_of this) (fun _ component => Component_Init component) tt ;;;
      forEach (children_of this) (fun _ child => Init fuel' child) tt
  end.

Definition Update (this : loc) : M unit :=
  forEach (components_of this) (fun _ component => Component_Update component) tt.

(** [this._parent.removeChild(this)] dereferences [_parent], which is [null]
    at a root. *)
Fixpoint Destroy (fuel : nat) (this : loc) : M unit :=
  match fuel with
  | O => fun s => RangeError s
  | S fuel' =>
      forEach (components_of this) (fun _ component => Component_Destroy component) tt ;;;
      forEach (children_of this) (fun _ child => Destroy fuel' child) tt ;;;
      parent <- read _parent this ;;
      match parent with
      | None => throwTypeError
      | Some p => removeChild p this
      end
  end.

(** The object that [getTree] builds: [{name, children}]. *)
#[warnings="-register-all"] Inductive Tree : Type :=
| mkTree (tree_name : string) (tree_children : list Tree).

Fixpoint getTree (fuel : nat) (this : loc) : M Tree :=
  match fuel with
  | O => fun s => RangeError s
  | S fuel' =>
      name <- read _name this ;;
      children <- forEach (children_of this)
                    (fun (children : list Tree) child =>
                       t <- getTree fuel' child ;;
                       ret (children ++ [t]))
                    [] ;;
      ret (mkTree name children)
  end.

(** ** The earlier [Entity] class

    The repository holds a second, older copy of the class; its
    [getComponentinChildren] is the same loop and returns the variable the
    loop assigns. *)
Module Legacy.

Definition getComponentinChildren (this : loc) (type : cls) : M (option Component) :=
  component <- forEach (children_of this)
         (fun (component : option Component) child =>
            has <- hasComponent child type ;;
            if has then getComponent child type else ret component)
         None ;;
  ret component.

(** [removeChild] of the earlier class, on an entity whose [children] is an
    array: the splice comes first, and the entry whose [parent] is cleared is
    read at [index] afterwards.  [undefined] and [null] are both [None]. *)
Definition removeChild (this : loc) (child : loc) : M unit :=
  index <- read (fun e => findIndex (fun c => Nat.eqb c child) (_children e)) this ;;
  (if (index >? -1)%Z
   then write this (fun e => set_children e (splice1 (_children e) index))
   else ret tt) ;;;
  entry <- read (fun e => array_get (_children e) index) this ;;
  match entry with
  | None => throwTypeError
  | Some c => write c (fun e => set_parent e None)
  end.

End Legacy.

(** ** Sequences of calls *)

Inductive op : Type :=
| AddChild (this child : loc)
| RemoveChild (this child : loc).

Definition exec_op (o : op) : M unit :=
  match o with
  | AddChild this child => addChild this child
  | RemoveChild this child => removeChild this child
  end.

(** The state in which a call leaves the program, whether it returned or
    threw. *)
Definition final {A} (r : result A) : state :=
  match r with
  | Ok _ s => s
  | TypeError s => s
  | RangeError s => s
  end.

(** Runs the calls one after the other; a call that throws is caught and the
    next one runs. *)
Fixpoint run (ops : list op) (s : state) : state :=
  match ops with
  | [] => s
  | o :: rest => run rest (final (exec_op o s))
  end.

Fixpoint addComponents (this : loc) (cs : list Component) (s : state) : state :=
  match cs with
  | [] => s
  | c :: rest => addComponents this rest (final (addComponent this c s))
  end.

Inductive comp_op : Type :=
| AddComponent (component : Component)
| RemoveComponent (type : cls).

Definition exec_comp_op (this : loc) (o : comp_op) : M unit :=
  match o with
  | AddComponent component => addComponent this component
  | RemoveComponent type => removeComponent this type
  end.

Fixpoint run_comp_ops (this : loc) (ops : list comp_op) (s : state) : state :=
  match ops with
  | [] => s
  | o :: rest => run_comp_ops this rest (final (exec_comp_op this o s))
  end.

(** * Specification

    The states, lists and predicates in which the properties of the methods
    are stated. *)

(** The same store, with one more line on the console. *)
Definition warned (s : state) (msg : string) : state :=
  mkState (st_heap s) (st_trace s ++ [Warn msg]).

(** The store after a call of [addChild] that attaches. *)
Definition attach (h : heap) (this child : loc) : heap :=
  let h1 := upd h child (set_parent (h child) (Some this)) in
  upd h1 this (set_children (h1 this) (_children (h1 this) ++ [child])).

(** The components that the children contribute to a query: for each child in
    order, its first component that is an instance of [type], if it has one. *)
Definition child_matches (h : heap) (type : cls) (children : list loc) : list Component :=
  flat_map (fun child =>
              match find (fun component => instanceof component type)
                         (_components (h child)) with
              | Some c => [c]
              | None => []
              end) children.

(** The hook calls of [Init] on the subtree of [n], to depth [d]: the
    components of [n] in the order they were attached, then the calls of each
    child's subtree, child after child. *)
Fixpoint init_order (d : nat) (h : heap) (n : loc) : list event :=
  map CompInit (_components (h n)) ++
  match d with
  | O => []
  | S d' => flat_map (init_order d' h) (_children (h n))
  end.

(** The subtree of [n] has no path of more than [d] edges. *)
Fixpoint height_le (d : nat) (h : heap) (n : loc) : bool :=
  match d with
  | O => match _children (h n) with [] => true | _ :: _ => false end
  | S d' => forallb (height_le d' h) (_children (h n))
  end.

(** A small scene, built with the methods themselves. *)
Module Scene.

Definition Transform : cls := Class "Transform".

(** The root 0 owns 1, which owns 2 and 3; 1, 2 and 3 carry one component
    each. *)
Definition scene : state :=
  final (addComponent 3 (mkComponent 12 Transform None)
  (final (addComponent 2 (mkComponent 11 Transform None)
  (final (addComponent 1 (mkComponent 10 Transform None)
  (run [AddChild 0 1; AddChild 1 2; AddChild 1 3] fresh_state)))))).

Definition c1 : Component := mkComponent 10 Transform (Some 1).
Definition c2 : Component := mkComponent 11 Transform (Some 2).
Definition c3 : Component := mkComponent 12 Transform (Some 3).

End Scene.

(** What [addComponent] keeps true of the components of a node: a component
    is never an instance of the class of a component attached after it. *)
Definition no_earlier_instance (l : list Component) : Prop :=
  ForallOrdPairs (fun earlier later => instanceof earlier (constructor later) = false) l.

(** The components of a fresh node after the calls [addComponent(c)] for the
    [c] of [cs], in order. *)
Definition attached (this : loc) (cs : list Component) : list Component :=
  _components (st_heap (addComponents this cs fresh_state) this).

(** [class Kinematic extends CollidableTransform], as the sources declare it;
    what [CollidableTransform] itself extends plays no part below. *)
Definition CollidableTransform : cls := Class "CollidableTransform".
Definition Kinematic : cls := Extends "Kinematic" CollidableTransform.

(** [descends h a x]: [x] is [a] or is reached from [a] through children. *)
Inductive descends (h : heap) : loc -> loc -> Prop :=
| descends_self (a : loc) : descends h a a
| descends_child (a m x : loc) :
    In m (_children (h a)) -> descends h m x -> descends h a x.

(** [a] is an ancestor of [x]. *)
Definition ancestor (h : heap) (a x : loc) : Prop :=
  exists m, In m (_children (h a)) /\ descends h m x.

(** The children of a node have it as their parent, and conversely; no node
    is twice among the children of a node, or among the children of two nodes;
    no node is its own ancestor. *)
Record tree_shape (h : heap) : Prop := mkTreeShape {
  child_parent : forall n c, In c (_children (h n)) -> _parent (h c) = Some n;
  parent_child : forall n c, _parent (h c) = Some n -> In c (_children (h n));
  children_nodup : forall n, NoDup (_children (h n));
  one_parent : forall n m c,
    In c (_children (h n)) -> In c (_children (h m)) -> n = m;
  acyclic : forall n, ~ ancestor h n n
}.

(** A call of [addChild] that keeps the shape: the child is already among
    the children of the node (the call is then rejected), or it has no parent
    and is neither the node itself nor one of its ancestors.  [removeChild]
    asks for nothing. *)
Definition op_ok (h : heap) (o : op) : Prop :=
  match o with
  | AddChild this child =>
      In child (_children (h this)) \/
      (_parent (h child) = None /\ ~ descends h child this)
  | RemoveChild _ _ => True
  end.

(** Each call of the sequence is acceptable in the state it is made in. *)
Fixpoint guarded (ops : list op) (s : state) : Prop :=
  match ops with
  | [] => True
  | o :: rest => op_ok (st_heap s) o /\ guarded rest (final (exec_op o s))
  end.

(** The store after a call of [removeChild] that finds the child: [rest] is
    what is left of the children. *)
Definition detach (h : heap) (this child : loc) (rest : list loc) : heap :=
  let h1 := upd h child (set_parent (h child) None) in
  upd h1 this (set_children (h1 this) rest).

(** A component and a state for the examples. *)
Definition kinematic : Component := mkComponent 30 Kinematic None.

Definition three_children : state :=
  run [AddChild 0 1; AddChild 0 2; AddChild 0 3] fresh_state.

(** The snapshot of the subtree of [n], to depth [d]. *)
Fixpoint tree_of (d : nat) (h : heap) (n : loc) : Tree :=
  mkTree (_name (h n))
    match d with
    | O => []
    | S d' => map (tree_of d' h) (_children (h n))
    end.

(** The elements at the even and at the odd indices of an array. *)
Fixpoint evens {A} (l : list A) : list A :=
  match l with
  | [] => []
  | a :: r => a :: match r with [] => [] | _ :: r' => evens r' end
  end.

Fixpoint odds {A} (l : list A) : list A :=
  match l with
  | [] => []
  | _ :: r => match r with [] => [] | b :: r' => b :: odds r' end
  end.

(** The [Destroy] calls on the components of the nodes [l]. *)
Definition destroy_calls (h : heap) (l : list loc) : list event :=
  flat_map (fun c => map CompDestroy (_components (h c))) l.

(** Every child of [this] is a leaf and has [this] as its parent. *)
Definition leaf_children (h : heap) (this : loc) : Prop :=
  forall c, In c (_children (h this)) ->
    _children (h c) = [] /\ _parent (h c) = Some this.

(** What every sequence of [addChild] and [removeChild] calls keeps, with no
    condition on the calls. *)
Definition weak_shape (h : heap) : Prop :=
  (forall n, NoDup (_children (h n))) /\
  (forall n c, _parent (h c) = Some n -> In c (_children (h n))).

(** * Properties *)

(** ** Classes *)

Lemma cls_eqb_refl (k : cls) : cls_eqb k k = true.
Proof.
  induction k as [n | n s IH]; simpl.
  - apply String.eqb_refl.
  - now rewrite String.eqb_refl, IH.
Qed.

Lemma cls_eqb_eq (a b : cls) : cls_eqb a b = true <-> a = b.
Proof.
  split.
  - revert b; induction a as [n | n s IH]; intros [m | m t]; simpl; try discriminate.
    + intros H; apply String.eqb_eq in H; now subst.
    + intros H; apply andb_true_iff in H; destruct H as [H1 H2].
      apply String.eqb_eq in H1; apply IH in H2; now subst.
  - intros ->; apply cls_eqb_refl.
Qed.

Lemma inherits_refl (k : cls) : inherits k k = true.
Proof. destruct k; simpl; now rewrite ?String.eqb_refl, ?cls_eqb_refl. Qed.

Lemma instanceof_constructor (c : Component) : instanceof c (constructor c) = true.
Proof. apply inherits_refl. Qed.

(** ** The store *)

Lemma upd_same (h : heap) (l : loc) (e : Entity) : upd h l e l = e.
Proof. unfold upd; now rewrite Nat.eqb_refl. Qed.

Lemma upd_other (h : heap) (l l' : loc) (e : Entity) : l' <> l -> upd h l e l' = h l'.
Proof. intros H; unfold upd; apply Nat.eqb_neq in H; now rewrite H. Qed.

(** ** Arrays *)

Section Arrays.
Context {A : Type}.
Variable p : A -> bool.

Lemma findIndex_from_none (l : list A) (k : Z) :
  existsb p l = false -> findIndex_from p l k = (-1)%Z.
Proof.
  revert k; induction l as [|x r IH]; intros k; simpl; [reflexivity|].
  destruct (p x); simpl; [discriminate | apply IH].
Qed.

(** A search that succeeds splits the array at the first match. *)
Lemma findIndex_from_some (l : list A) (k : Z) :
  existsb p l = true ->
  exists before x after,
    l = before ++ x :: after /\ p x = true /\
    (forall y, In y before -> p y = false) /\
    findIndex_from p l k = (k + Z.of_nat (List.length before))%Z.
Proof.
  revert k; induction l as [|x r IH]; intros k; simpl; [discriminate|].
  destruct (p x) eqn:E; simpl.
  - intros _; exists [], x, r; simpl; repeat split; auto; try lia; contradiction.
  - intros H; destruct (IH (k + 1)%Z H) as (b & y & a & -> & Hy & Hb & Hi).
    exists (x :: b), y, a; simpl; repeat split; auto.
    + intros z [<- | Hz]; auto.
    + rewrite Hi; lia.
Qed.

Lemma existsb_false_iff (l : list A) :
  existsb p l = false <-> forall x, In x l -> p x = false.
Proof.
  induction l as [|x r IH]; simpl.
  - split; [intros _ ? [] | reflexivity].
  - rewrite orb_false_iff, IH; split.
    + intros [H1 H2] y [<- | Hy]; auto.
    + intros H; split; [apply H; now left | intros y Hy; apply H; now right].
Qed.

Lemma find_existsb (l : list A) :
  existsb p l = true <-> exists x, find p l = Some x.
Proof.
  induction l as [|x r IH]; simpl.
  - split; [discriminate | intros [? H]; discriminate].
  - destruct (p x); simpl; [split; eauto | exact IH].
Qed.

Lemma find_first (l : list A) (x : A) :
  find p l = Some x ->
  exists before after,
    l = before ++ x :: after /\ p x = true /\ forall y, In y before -> p y = false.
Proof.
  induction l as [|a r IH]; simpl; [discriminate|].
  destruct (p a) eqn:E.
  - intros [= <-]; exists [], r; repeat split; auto; intros ? [].
  - intros H; destruct (IH H) as (b & af & -> & Hx & Hb).
    exists (a :: b), af; repeat split; auto.
    intros y [<- | Hy]; auto.
Qed.
End Arrays.

Lemma array_get_app_length {A} (before after : list A) (x : A) :
  array_get (before ++ x :: after) (Z.of_nat (List.length before)) = Some x.
Proof.
  unfold array_get.
  destruct (Z.ltb_spec (Z.of_nat (List.length before)) 0); [lia|].
  rewrite Nat2Z.id, nth_error_app2, Nat.sub_diag; auto.
Qed.

Lemma remove_at_app_length {A} (before after : list A) (x : A) :
  remove_at (before ++ x :: after) (List.length before) = before ++ after.
Proof. induction before as [|b r IH]; simpl; [reflexivity | now rewrite IH]. Qed.

Lemma splice1_app_length {A} (before after : list A) (x : A) :
  splice1 (before ++ x :: after) (Z.of_nat (List.length before)) = before ++ after.
Proof.
  unfold splice1.
  destruct (Z.ltb_spec (Z.of_nat (List.length before)) 0); [lia|].
  rewrite Z.min_l, Nat2Z.id by (rewrite length_app; simpl; lia).
  apply remove_at_app_length.
Qed.

(** ** [forEach] over an array that the callback leaves alone *)

Section ForEach.
Context {A B : Type}.
Variable arr : state -> list A.
Variable callback : B -> A -> M B.

(** A callback that only reads the store: the loop is a left fold. *)
Lemma forEach_loop_pure (f : B -> A -> B) (s : state) :
  (forall acc v, In v (arr s) -> callback acc v s = Ok (f acc v) s) ->
  forall n k acc, k + n = List.length (arr s) ->
    forEach_loop arr callback k n acc s = Ok (fold_left f (skipn k (arr s)) acc) s.
Proof.
  intros Hcb; induction n as [|n IH]; intros k acc Hk; simpl.
  - rewrite skipn_all2 by lia; reflexivity.
  - destruct (nth_error (arr s) k) as [v|] eqn:E.
    + assert (Hin : In v (arr s)) by (eapply nth_error_In; eauto).
      unfold bind; rewrite (Hcb acc v Hin), IH by lia.
      assert (Hs : skipn k (arr s) = v :: skipn (S k) (arr s)).
      { clear - E; revert k E; induction (arr s) as [|a r IHr]; intros [|k] E;
          simpl in *; try discriminate; [now inversion E | now apply IHr]. }
      now rewrite Hs.
    + apply nth_error_None in E; lia.
Qed.

Lemma forEach_pure (f : B -> A -> B) (s : state) (acc : B) :
  (forall acc v, In v (arr s) -> callback acc v s = Ok (f acc v) s) ->
  forEach arr callback acc s = Ok (fold_left f (arr s) acc) s.
Proof.
  intros H; unfold forEach.
  now rewrite (forEach_loop_pure f s H (List.length (arr s)) 0 acc eq_refl).
Qed.
End ForEach.

Section ForEachEmit.
Context {A : Type}.
Variable arr : state -> list A.
Variable callback : unit -> A -> M unit.
Variable h : heap.
Variable l : list A.
Variable ev : A -> list event.
Hypothesis arr_heap : forall tr, arr (mkState h tr) = l.
Hypothesis callback_emits : forall v tr, In v l ->
  callback tt v (mkState h tr) = Ok tt (mkState h (tr ++ ev v)).

(** A callback that only adds to the trace: the loop adds the events of
    each element in turn. *)
Lemma forEach_loop_emit :
  forall n k tr, k + n = List.length l ->
    forEach_loop arr callback k n tt (mkState h tr)
    = Ok tt (mkState h (tr ++ flat_map ev (skipn k l))).
Proof.
  induction n as [|n IH]; intros k tr Hk; simpl.
  - rewrite skipn_all2 by lia; simpl; now rewrite app_nil_r.
  - rewrite arr_heap.
    destruct (nth_error l k) as [v|] eqn:E.
    + assert (Hin : In v l) by (eapply nth_error_In; eauto).
      unfold bind; rewrite (callback_emits v tr Hin), IH by lia.
      assert (Hs : skipn k l = v :: skipn (S k) l).
      { clear - E; revert k E; induction l as [|a r IHr]; intros [|k] E;
          simpl in *; try discriminate; [now inversion E | now apply IHr]. }
      rewrite Hs; simpl; now rewrite app_assoc.
    + apply nth_error_None in E; lia.
Qed.

Lemma forEach_emit (tr : list event) :
  forEach arr callback tt (mkState h tr) = Ok tt (mkState h (tr ++ flat_map ev l)).
Proof.
  unfold forEach; rewrite arr_heap.
  now rewrite (forEach_loop_emit (List.length l) 0 tr eq_refl).
Qed.
End ForEachEmit.

(** ** Component lookup *)

(** C10: [hasComponent(type)] is true exactly when [getComponent(type)]
    returns a component; neither changes the store, and the component returned
    is the first attached one that is an instance of [type]. *)
Theorem hasComponent_iff_getComponent (this : loc) (type : cls) (s : state) :
  exists (has : bool) (found : option Component),
    hasComponent this type s = Ok has s /\
    getComponent this type s = Ok found s /\
    (has = true <-> exists c, found = Some c) /\
    (forall c, found = Some c ->
       exists before after,
         _components (st_heap s this) = before ++ c :: after /\
         instanceof c type = true /\
         forall y, In y before -> instanceof y type = false).
Proof.
  exists (existsb (fun component => instanceof component type)
            (_components (st_heap s this))),
         (find (fun component => instanceof component type)
            (_components (st_heap s this))).
  repeat split; try reflexivity.
  - apply find_existsb.
  - apply find_existsb.
  - intros c Hc; now apply find_first in Hc.
Qed.

(** ** Rejected calls *)

Lemma existsb_eqb_In (x : loc) (l : list loc) :
  existsb (Nat.eqb x) l = true <-> In x l.
Proof.
  rewrite existsb_exists; split.
  - intros (y & Hy & E); apply Nat.eqb_eq in E; now subst.
  - intros H; exists x; split; [assumption | apply Nat.eqb_refl].
Qed.

Lemma addComponent_rejected (this : loc) (component : Component) (s : state) :
  (exists c, In c (_components (st_heap s this)) /\
             instanceof c (constructor component) = true) ->
  addComponent this component s = Ok tt (warned s "Component already attached").
Proof.
  intros (c & Hin & Hc); unfold addComponent, bind, hasComponent, read.
  replace (existsb _ _) with true; [reflexivity|].
  symmetry; apply existsb_exists; eauto.
Qed.

Lemma addComponent_accepted (this : loc) (component : Component) (s : state) :
  (forall c, In c (_components (st_heap s this)) ->
             instanceof c (constructor component) = false) ->
  addComponent this component s
  = Ok tt (mkState (upd (st_heap s) this
                      (set_components (st_heap s this)
                         (_components (st_heap s this) ++ [set_entity component this])))
                   (st_trace s)).
Proof.
  intros H; unfold addComponent, bind, hasComponent, read.
  replace (existsb _ _) with false; [reflexivity|].
  symmetry; now apply existsb_false_iff.
Qed.

Lemma addChild_rejected (this child : loc) (s : state) :
  In child (_children (st_heap s this)) ->
  addChild this child s = Ok tt (warned s "Child already attached").
Proof.
  intros H; unfold addChild, bind, read.
  apply existsb_eqb_In in H; now rewrite H.
Qed.

Lemma addChild_accepted (this child : loc) (s : state) :
  ~ In child (_children (st_heap s this)) ->
  addChild this child s = Ok tt (mkState (attach (st_heap s) this child) (st_trace s)).
Proof.
  intros H; unfold addChild, bind, read.
  destruct (existsb (Nat.eqb child) (_children (st_heap s this))) eqn:E.
  - apply existsb_eqb_In in E; contradiction.
  - reflexivity.
Qed.

Lemma removeComponent_missing (this : loc) (type : cls) (s : state) :
  (forall c, In c (_components (st_heap s this)) -> instanceof c type = false) ->
  removeComponent this type s = Ok tt (warned s "Component not found").
Proof.
  intros H; unfold removeComponent, bind, read, findIndex.
  rewrite findIndex_from_none by now apply existsb_false_iff.
  reflexivity.
Qed.

(** C7: attaching a component whose class an attached component is already
    an instance of, attaching a child that is already in the children, and
    removing a component when none matches, each log one warning, return
    normally and leave the whole store (components, children and parents of
    every node) as it was. *)
Theorem rejected_calls_warn_and_do_nothing (this : loc) (s : state) :
  (forall component,
     (exists c, In c (_components (st_heap s this)) /\
                instanceof c (constructor component) = true) ->
     addComponent this component s = Ok tt (warned s "Component already attached")) /\
  (forall child,
     In child (_children (st_heap s this)) ->
     addChild this child s = Ok tt (warned s "Child already attached")) /\
  (forall type,
     (forall c, In c (_components (st_heap s this)) -> instanceof c type = false) ->
     removeComponent this type s = Ok tt (warned s "Component not found")).
Proof.
  split; [|split].
  - intros component; apply addComponent_rejected.
  - intros child; apply addChild_rejected.
  - intros type; apply removeComponent_missing.
Qed.

(** ** Queries over the children *)

Lemma last_cons {A} (l : list A) (a d : A) : last (a :: l) d = last l a.
Proof.
  revert a d; induction l as [|b r IH]; intros a d; [reflexivity|].
  change (last (a :: b :: r) d) with (last (b :: r) d).
  now rewrite (IH b d), (IH b a).
Qed.

Lemma fold_collect (h : heap) (type : cls) (l : list loc) (acc : list (option Component)) :
  fold_left (fun components child =>
               if existsb (fun component => instanceof component type) (_components (h child))
               then components ++
                    [find (fun component => instanceof component type) (_components (h child))]
               else components) l acc
  = acc ++ map Some (child_matches h type l).
Proof.
  revert acc; induction l as [|child r IH]; intros acc; simpl.
  - now rewrite app_nil_r.
  - rewrite IH; unfold child_matches at 2; simpl.
    fold (child_matches h type r).
    destruct (existsb _ (_components (h child))) eqn:E.
    + apply find_existsb in E; destruct E as [c ->]; simpl.
      now rewrite <- app_assoc.
    + destruct (find _ (_components (h child))) eqn:F.
      * assert (existsb (fun component => instanceof component type)
                  (_components (h child)) = true) by (apply find_existsb; eauto).
        congruence.
      * reflexivity.
Qed.

Lemma fold_overwrite (h : heap) (type : cls) (l : list loc) (acc : option Component) :
  fold_left (fun component child =>
               if existsb (fun component => instanceof component type) (_components (h child))
               then find (fun component => instanceof component type) (_components (h child))
               else component) l acc
  = last (map Some (child_matches h type l)) acc.
Proof.
  revert acc; induction l as [|child r IH]; intros acc; simpl; [reflexivity|].
  rewrite IH; unfold child_matches at 2; simpl.
  fold (child_matches h type r).
  destruct (existsb _ (_components (h child))) eqn:E.
  - apply find_existsb in E; destruct E as [c ->]; simpl map.
    now rewrite last_cons.
  - destruct (find _ (_components (h child))) eqn:F.
    + assert (existsb (fun component => instanceof component type)
                (_components (h child)) = true) by (apply find_existsb; eauto).
      congruence.
    + reflexivity.
Qed.

(** C8: [getComponentsInChildren(type)] returns, without changing the store,
    one component for each direct child that has a component that is an
    instance of [type] (the first such component of that child), in the order
    of the children; the other children, and the children of the children,
    contribute nothing. *)
Theorem getComponentsInChildren_spec (this : loc) (type : cls) (s : state) :
  getComponentsInChildren this type s
  = Ok (map Some (child_matches (st_heap s) type (_children (st_heap s this)))) s.
Proof.
  unfold getComponentsInChildren.
  erewrite forEach_pure; [unfold children_of; rewrite fold_collect; reflexivity|].
  intros acc child _; unfold bind, hasComponent, getComponent, read, ret.
  destruct (existsb _ _); reflexivity.
Qed.

(** X21: the [getComponentinChildren] of the earlier class returns the
    component found in the last child that has one, and [null] when no child
    has one. *)
Lemma Legacy_getComponentinChildren_last (this : loc) (type : cls) (s : state) :
  Legacy.getComponentinChildren this type s
  = Ok (last (map Some (child_matches (st_heap s) type (_children (st_heap s this)))) None) s.
Proof.
  unfold Legacy.getComponentinChildren, bind.
  erewrite forEach_pure; [unfold children_of; rewrite fold_overwrite; reflexivity|].
  intros acc child _; unfold bind, hasComponent, getComponent, read, ret.
  destruct (existsb _ _); reflexivity.
Qed.

(** C2: [getComponentinChildren(type)] returns [null] whatever the children
    hold: the [return component] of the source is the return of the callback,
    and the method itself ends in [return null]. *)
Theorem getComponentinChildren_returns_null (this : loc) (type : cls) (s : state) :
  getComponentinChildren this type s = Ok None s.
Proof.
  unfold getComponentinChildren, bind.
  rewrite (forEach_pure _ _
             (fun component child =>
                if existsb (fun c => instanceof c type) (_components (st_heap s child))
                then find (fun c => instanceof c type) (_components (st_heap s child))
                else component)); [reflexivity|].
  intros acc child _; unfold bind, hasComponent, getComponent, read, ret.
  destruct (existsb _ _); reflexivity.
Qed.

(** ** Removing a child *)

Lemma removeChild_absent (this child : loc) (s : state) :
  ~ In child (_children (st_heap s this)) ->
  removeChild this child s = TypeError s.
Proof.
  intros H; unfold removeChild, bind, read, findIndex.
  rewrite findIndex_from_none; [reflexivity|].
  apply existsb_false_iff; intros x Hx.
  apply Nat.eqb_neq; intros ->; contradiction.
Qed.

(** C1: when [child] is not among the children of [this], [removeChild(child)]
    throws a [TypeError]: [findIndex] returns -1, [this._children[-1]] is
    [undefined], and the assignment to its [parent] comes before the test of
    the index.  Nothing has been changed when it throws. *)
Theorem removeChild_absent_throws (this child : loc) (s : state) :
  ~ In child (_children (st_heap s this)) ->
  removeChild this child s = TypeError s /\
  removeChild this child s <> Ok tt s.
Proof.
  intros H; rewrite (removeChild_absent this child s H).
  split; [reflexivity | discriminate].
Qed.

(** ** Initialisation *)

Lemma flat_map_singleton {A B} (f : A -> B) (l : list A) :
  flat_map (fun x => [f x]) l = map f l.
Proof. induction l as [|x r IH]; simpl; [reflexivity | now rewrite IH]. Qed.

Lemma forEach_components_emit (this : loc) (hook : Component -> event) (h : heap)
    (tr : list event) :
  forEach (components_of this) (fun _ component => emit (hook component)) tt (mkState h tr)
  = Ok tt (mkState h (tr ++ map hook (_components (h this)))).
Proof.
  rewrite <- flat_map_singleton.
  apply forEach_emit with (ev := fun c => [hook c]).
  - reflexivity.
  - intros v tr' _; destruct tt; reflexivity.
Qed.

(** C6: on a subtree of height at most [d], with a call stack deeper than
    [d], [Init()] returns, leaves the store as it was, and has called [Init] on
    the components of the node, in attachment order, and after them the
    [Init()] of each child in child order, each of which does the same in its
    own subtree. *)
Theorem Init_components_then_children (d fuel : nat) (h : heap) (this : loc)
    (tr : list event) :
  height_le d h this = true ->
  d < fuel ->
  Init fuel this (mkState h tr) = Ok tt (mkState h (tr ++ init_order d h this)) /\
  init_order d h this
  = map CompInit (_components (h this)) ++
    flat_map (init_order (pred d) h) (_children (h this)).
Proof.
  revert fuel this tr; induction d as [|d IH]; intros fuel this tr Hh Hf;
    (destruct fuel as [|fuel]; [lia|]); simpl in Hh |- *; unfold bind;
    unfold Component_Init; rewrite forEach_components_emit.
  - destruct (_children (h this)) eqn:E; [|discriminate].
    split; [|reflexivity].
    unfold forEach, children_of; simpl; rewrite E; simpl.
    unfold ret; now rewrite app_nil_r.
  - split; [|reflexivity].
    rewrite (forEach_emit (children_of this) _ h (_children (h this)) (init_order d h)).
    + now rewrite app_assoc.
    + reflexivity.
    + intros child tr' Hin.
      rewrite forallb_forall in Hh.
      apply (IH fuel child tr' (Hh child Hin)); lia.
Qed.

(** ** Destruction *)

(** The scene, as the calls that build it leave it. *)
Lemma scene_shape :
  let scene := Scene.scene in
  _children (st_heap scene 0) = [1] /\
  _children (st_heap scene 1) = [2; 3] /\
  _parent (st_heap scene 1) = Some 0 /\
  _parent (st_heap scene 2) = Some 1 /\
  _parent (st_heap scene 3) = Some 1 /\
  _components (st_heap scene 1) = [Scene.c1] /\
  _components (st_heap scene 2) = [Scene.c2] /\
  _components (st_heap scene 3) = [Scene.c3] /\
  st_trace scene = [].
Proof. repeat split. Qed.

(** C3: on a node with a parent and two children, [Destroy()] destroys the
    components of the node and the first child, and never reaches the second
    child: the first child removes itself from the array that the [forEach] of
    its parent is walking, so the second child moves to index 0 and index 1 is
    empty when the loop gets there.  The node then leaves its parent with the
    second child still attached to it. *)
Theorem Destroy_skips_second_child :
  exists s',
    Destroy 3 1 Scene.scene = Ok tt s' /\
    st_trace s' = [CompDestroy Scene.c1; CompDestroy Scene.c2] /\
    _components (st_heap s' 3) = [Scene.c3] /\
    _children (st_heap s' 1) = [3] /\
    _parent (st_heap s' 3) = Some 1 /\
    _children (st_heap s' 0) = [] /\
    _parent (st_heap s' 1) = None.
Proof.
  eexists; split; [vm_compute; reflexivity|].
  repeat split.
Qed.

(** ** Uniqueness of components *)

Lemma addComponent_components (this : loc) (c : Component) (s : state) :
  _components (st_heap (final (addComponent this c s)) this)
  = if existsb (fun x => instanceof x (constructor c)) (_components (st_heap s this))
    then _components (st_heap s this)
    else _components (st_heap s this) ++ [set_entity c this].
Proof.
  unfold addComponent, bind, hasComponent, read.
  destruct (existsb _ _); simpl; [reflexivity | now rewrite upd_same].
Qed.

Lemma ForallOrdPairs_snoc {A} (R : A -> A -> Prop) (l : list A) (x : A) :
  ForallOrdPairs R l -> Forall (fun y => R y x) l -> ForallOrdPairs R (l ++ [x]).
Proof.
  induction 1 as [|a l Ha Hl IH]; intros Hx; simpl.
  - repeat constructor.
  - inversion Hx; subst; constructor; [|auto].
    apply Forall_app; split; [assumption | now constructor].
Qed.

Lemma addComponents_no_earlier_instance (this : loc) (cs : list Component) (s : state) :
  no_earlier_instance (_components (st_heap s this)) ->
  no_earlier_instance (_components (st_heap (addComponents this cs s) this)).
Proof.
  revert s; induction cs as [|c rest IH]; intros s Hs; simpl; [assumption|].
  apply IH; rewrite addComponent_components.
  destruct (existsb _ _) eqn:E; [assumption|].
  apply ForallOrdPairs_snoc; [assumption|].
  apply Forall_forall; intros y Hy; simpl.
  now apply (proj1 (existsb_false_iff _ _) E).
Qed.

Lemma filter_none {A} (p : A -> bool) (l : list A) :
  (forall x, In x l -> p x = false) -> filter p l = [].
Proof.
  induction l as [|a r IH]; intros H; simpl; [reflexivity|].
  rewrite (H a) by now left.
  apply IH; intros x Hx; apply H; now right.
Qed.

Lemma no_earlier_instance_one_per_class (l : list Component) (C : cls) :
  no_earlier_instance l ->
  List.length (filter (fun c => cls_eqb (constructor c) C) l) <= 1.
Proof.
  induction 1 as [|a l Ha Hl IH]; simpl; [lia|].
  destruct (cls_eqb (constructor a) C) eqn:E; [|assumption].
  apply cls_eqb_eq in E; rewrite filter_none; [simpl; lia|].
  intros x Hx; destruct (cls_eqb (constructor x) C) eqn:Ex; [|reflexivity].
  apply cls_eqb_eq in Ex; rewrite Forall_forall in Ha.
  specialize (Ha x Hx); unfold instanceof in Ha.
  rewrite E, Ex, inherits_refl in Ha; discriminate.
Qed.

(** C4, as the code has it: after any sequence of [addComponent] calls on a
    fresh node, at most one attached component has [C] as its own class, and
    no attached component is an instance of the class of a component attached
    after it.  A component whose class extends [C] is still attached next to
    an earlier component of class [C]. *)
Theorem addComponent_one_component_per_class (this : loc) (cs : list Component) (C : cls) :
  List.length (filter (fun c => cls_eqb (constructor c) C) (attached this cs)) <= 1 /\
  no_earlier_instance (attached this cs).
Proof.
  assert (H : no_earlier_instance (attached this cs)).
  { apply addComponents_no_earlier_instance; constructor. }
  split; [now apply no_earlier_instance_one_per_class | assumption].
Qed.

(** C4: a [CollidableTransform] and then a [Kinematic] are both attached,
    and both are instances of [CollidableTransform]. *)
Lemma two_components_of_one_capability :
  ~ (forall (this : loc) (cs : list Component) (C : cls),
       List.length (filter (fun c => instanceof c C) (attached this cs)) <= 1).
Proof.
  intros H.
  specialize (H 0 [mkComponent 1 CollidableTransform None; mkComponent 2 Kinematic None]
                CollidableTransform).
  vm_compute in H; lia.
Qed.

(** ** Attaching a child twice *)

Lemma attach_children_this (h : heap) (this child : loc) :
  _children (attach h this child this) = _children (h this) ++ [child].
Proof.
  unfold attach; rewrite upd_same; simpl.
  unfold upd; destruct (Nat.eqb_spec this child); subst; reflexivity.
Qed.

Lemma attach_parent_child (h : heap) (this child : loc) :
  _parent (attach h this child child) = Some this.
Proof.
  unfold attach, upd; simpl.
  destruct (Nat.eqb child this) eqn:E; simpl.
  - now rewrite Nat.eqb_sym, E.
  - now rewrite Nat.eqb_refl.
Qed.

Lemma count_occ_snoc (l : list loc) (x : loc) :
  count_occ Nat.eq_dec (l ++ [x]) x = S (count_occ Nat.eq_dec l x).
Proof.
  induction l as [|a r IH]; simpl.
  - destruct (Nat.eq_dec x x); [reflexivity | contradiction].
  - rewrite IH; destruct (Nat.eq_dec a x); reflexivity.
Qed.

(** C9, as the code has it: when [child] occurs at most once among the
    children of [this] and, if it is there already, has [this] as its parent,
    two calls of [this.addChild(child)] leave exactly one occurrence of [child]
    and [child.parent == this]; the second call logs a warning and changes
    nothing in the store. *)
Theorem addChild_twice (this child : loc) (s : state) :
  count_occ Nat.eq_dec (_children (st_heap s this)) child <= 1 ->
  (In child (_children (st_heap s this)) -> _parent (st_heap s child) = Some this) ->
  let s1 := final (addChild this child s) in
  let s2 := final (addChild this child s1) in
  addChild this child s1 = Ok tt (warned s1 "Child already attached") /\
  count_occ Nat.eq_dec (_children (st_heap s2 this)) child = 1 /\
  _parent (st_heap s1 child) = Some this /\
  _parent (st_heap s2 child) = Some this.
Proof.
  intros Hc Hp s1 s2.
  destruct (in_dec Nat.eq_dec child (_children (st_heap s this))) as [Hin | Hout].
  - assert (E1 : s1 = warned s "Child already attached").
    { unfold s1; now rewrite addChild_rejected. }
    assert (Hin1 : In child (_children (st_heap s1 this))) by now rewrite E1.
    assert (E2 : s2 = warned s1 "Child already attached").
    { unfold s2; now rewrite addChild_rejected. }
    split; [now apply addChild_rejected|].
    rewrite E2, E1; simpl; repeat split; auto.
    apply (count_occ_In Nat.eq_dec) in Hin; lia.
  - assert (E1 : s1 = mkState (attach (st_heap s) this child) (st_trace s)).
    { unfold s1; now rewrite addChild_accepted. }
    assert (Hin1 : In child (_children (st_heap s1 this))).
    { rewrite E1; simpl; rewrite attach_children_this.
      apply in_or_app; right; now left. }
    assert (E2 : s2 = warned s1 "Child already attached").
    { unfold s2; now rewrite addChild_rejected. }
    split; [now apply addChild_rejected|].
    rewrite E2, E1; simpl; rewrite attach_children_this, attach_parent_child.
    repeat split.
    rewrite count_occ_snoc.
    apply (count_occ_not_In Nat.eq_dec) in Hout; lia.
Qed.

(** C9: after [1.addChild(2)] has taken the child 2 away from 0 without
    removing it from the children of 0, two calls of [0.addChild(2)] are both
    rejected and the parent of 2 is still 1. *)
Lemma addChild_twice_keeps_other_parent :
  let s := run [AddChild 0 2; AddChild 1 2] fresh_state in
  let s2 := final (addChild 0 2 (final (addChild 0 2 s))) in
  ~ (count_occ Nat.eq_dec (_children (st_heap s2 0)) 2 = 1 /\
     _parent (st_heap s2 2) = Some 0).
Proof. vm_compute; intros [_ H]; discriminate. Qed.

(** ** The shape of the tree *)

Lemma attach_children (h : heap) (this child n : loc) :
  _children (attach h this child n)
  = if Nat.eqb n this then _children (h this) ++ [child] else _children (h n).
Proof.
  destruct (Nat.eqb_spec n this) as [-> | Hn].
  - apply attach_children_this.
  - unfold attach; rewrite upd_other by assumption.
    unfold upd; destruct (Nat.eqb_spec n child); subst; reflexivity.
Qed.

Lemma attach_parent (h : heap) (this child n : loc) :
  _parent (attach h this child n)
  = if Nat.eqb n child then Some this else _parent (h n).
Proof.
  destruct (Nat.eqb_spec n child) as [-> | Hn].
  - apply attach_parent_child.
  - unfold attach, upd.
    destruct (Nat.eqb_spec n this) as [-> | Hn']; simpl.
    + destruct (Nat.eqb_spec this child); [contradiction | reflexivity].
    + destruct (Nat.eqb_spec n child); [contradiction | reflexivity].
Qed.

Lemma detach_children (h : heap) (this child : loc) (rest : list loc) (n : loc) :
  _children (detach h this child rest n)
  = if Nat.eqb n this then rest else _children (h n).
Proof.
  unfold detach, upd.
  destruct (Nat.eqb n this); [reflexivity|].
  destruct (Nat.eqb_spec n child); subst; reflexivity.
Qed.

Lemma detach_parent (h : heap) (this child : loc) (rest : list loc) (n : loc) :
  _parent (detach h this child rest n)
  = if Nat.eqb n child then None else _parent (h n).
Proof.
  unfold detach, upd.
  destruct (Nat.eqb_spec n this) as [-> | Hn]; simpl.
  - destruct (Nat.eqb this child); reflexivity.
  - destruct (Nat.eqb_spec n child); subst; reflexivity.
Qed.

(** A call of [removeChild] that finds the child clears its parent and takes
    its first occurrence out of the children. *)
Lemma removeChild_found (this child : loc) (s : state) :
  In child (_children (st_heap s this)) ->
  exists before after,
    _children (st_heap s this) = before ++ child :: after /\
    ~ In child before /\
    removeChild this child s
    = Ok tt (mkState (detach (st_heap s) this child (before ++ after)) (st_trace s)).
Proof.
  intros Hin.
  destruct (findIndex_from_some (fun c => Nat.eqb c child) (_children (st_heap s this)) 0)
    as (before & x & after & El & Hx & Hb & Hi).
  { apply existsb_exists; exists child; split; [assumption | apply Nat.eqb_refl]. }
  apply Nat.eqb_eq in Hx; subst x.
  exists before, after; split; [assumption|]; split.
  - intros H; apply Hb in H; rewrite Nat.eqb_refl in H; discriminate.
  - unfold removeChild, bind, read, findIndex; rewrite Hi; simpl (0 + _)%Z.
    rewrite El, array_get_app_length.
    unfold write; simpl.
    destruct (Z.gtb_spec (Z.of_nat (List.length before)) (-1)); [|lia].
    unfold detach; do 2 f_equal.
    assert (Ec : _children (upd (st_heap s) child
                              (set_parent (st_heap s child) None) this)
                 = before ++ child :: after).
    { unfold upd; destruct (Nat.eqb_spec this child) as [E|E]; simpl;
        [rewrite E in El|]; exact El. }
    cbn [st_heap]; now rewrite Ec, splice1_app_length.
Qed.

Lemma descends_trans (h : heap) (a b c : loc) :
  descends h a b -> descends h b c -> descends h a c.
Proof.
  induction 1 as [a | a m x Hm Hd IH]; intros Hc; [assumption|].
  eapply descends_child; eauto.
Qed.

Lemma descends_leaf (h : heap) (a x : loc) :
  _children (h a) = [] -> descends h a x -> a = x.
Proof.
  intros E H; destruct H as [a | a m x Hm _]; [reflexivity|].
  rewrite E in Hm; contradiction.
Qed.

Lemma descends_sub (h h' : heap) :
  (forall n c, In c (_children (h' n)) -> In c (_children (h n))) ->
  forall a x, descends h' a x -> descends h a x.
Proof.
  intros Hsub a x; induction 1 as [a | a m x Hm Hd IH]; [constructor|].
  eapply descends_child; eauto.
Qed.

(** The first two clauses and acyclicity give the rest. *)
Lemma tree_shape_intro (h : heap) :
  (forall n c, In c (_children (h n)) -> _parent (h c) = Some n) ->
  (forall n c, _parent (h c) = Some n -> In c (_children (h n))) ->
  (forall n, NoDup (_children (h n))) ->
  (forall n, ~ ancestor h n n) ->
  tree_shape h.
Proof.
  intros Hcp Hpc Hnd Hac; constructor; auto.
  intros n m c Hn Hm; apply Hcp in Hn; apply Hcp in Hm; congruence.
Qed.

Lemma tree_shape_fresh : tree_shape fresh_heap.
Proof.
  apply tree_shape_intro; simpl.
  - intros n c [].
  - intros n c H; discriminate.
  - intros n; constructor.
  - intros n (m & [] & _).
Qed.

Section Attach.
Variable h : heap.
Variables this child : loc.
Hypothesis shape : tree_shape h.
Hypothesis no_parent : _parent (h child) = None.
Hypothesis not_below : ~ descends h child this.

Lemma attach_child_fresh (n : loc) : ~ In child (_children (h n)).
Proof.
  intros H; apply (child_parent h shape) in H; congruence.
Qed.

Lemma attach_edge (n c : loc) :
  In c (_children (attach h this child n)) ->
  In c (_children (h n)) \/ (n = this /\ c = child).
Proof.
  rewrite attach_children.
  destruct (Nat.eqb_spec n this) as [-> | Hn]; [|auto].
  intros H; apply in_app_or in H; destruct H as [H | [<- | []]]; auto.
Qed.

(** A path of the new tree is a path of the old one, or goes through the
    new edge. *)
Lemma attach_descends (a b : loc) :
  descends (attach h this child) a b ->
  descends h a b \/ (descends h a this /\ descends h child b).
Proof.
  induction 1 as [a | a m x Hm Hd IH].
  - left; constructor.
  - apply attach_edge in Hm; destruct Hm as [Hm | [-> ->]].
    + destruct IH as [IH | [IH1 IH2]].
      * left; eapply descends_child; eauto.
      * right; split; [eapply descends_child; eauto | assumption].
    + right; split; [constructor|].
      destruct IH as [IH | [_ IH]]; assumption.
Qed.

Lemma attach_tree_shape : tree_shape (attach h this child).
Proof.
  assert (Hne : child <> this) by (intros ->; apply not_below; constructor).
  apply tree_shape_intro.
  - intros n c Hc; rewrite attach_parent.
    apply attach_edge in Hc; destruct Hc as [Hc | [-> ->]].
    + destruct (Nat.eqb_spec c child) as [-> | _].
      * now apply attach_child_fresh in Hc.
      * now apply (child_parent h shape).
    + now rewrite Nat.eqb_refl.
  - intros n c; rewrite attach_parent, attach_children.
    destruct (Nat.eqb_spec c child) as [-> | Hc].
    + intros [= <-]; rewrite Nat.eqb_refl; apply in_or_app; right; now left.
    + intros Hp; apply (parent_child h shape) in Hp.
      destruct (Nat.eqb_spec n this) as [-> | _]; [apply in_or_app|]; auto.
  - intros n; rewrite attach_children.
    destruct (Nat.eqb n this); [|apply (children_nodup h shape)].
    apply NoDup_app; repeat split.
    + apply (children_nodup h shape).
    + repeat constructor; intros [].
    + intros x Hx [<- | []]; now apply attach_child_fresh in Hx.
  - intros n (m & Hm & Hd).
    apply attach_descends in Hd; apply attach_edge in Hm.
    destruct Hm as [Hm | [-> ->]]; destruct Hd as [Hd | [Hd1 Hd2]].
    + apply (acyclic h shape n); exists m; auto.
    + apply not_below, (descends_trans h child n this); [assumption|].
      eapply descends_child; eauto.
    + exact (not_below Hd).
    + exact (not_below Hd1).
Qed.
End Attach.

Section Detach.
Variable h : heap.
Variables this child : loc.
Variables before after : list loc.
Hypothesis shape : tree_shape h.
Hypothesis split_children : _children (h this) = before ++ child :: after.

Lemma detach_child_gone : ~ In child (before ++ after).
Proof.
  pose proof (children_nodup h shape this) as Hnd.
  rewrite split_children in Hnd; now apply NoDup_remove_2 in Hnd.
Qed.

Lemma detach_edge (n c : loc) :
  In c (_children (detach h this child (before ++ after) n)) ->
  In c (_children (h n)) /\ c <> child.
Proof.
  rewrite detach_children.
  destruct (Nat.eqb_spec n this) as [-> | Hn]; intros Hc.
  - split.
    + rewrite split_children; apply in_app_or in Hc; apply in_or_app.
      destruct Hc; [left | right; right]; assumption.
    + intros ->; now apply detach_child_gone.
  - split; [assumption|].
    intros ->; apply Hn.
    apply (one_parent h shape n this child); [assumption|].
    rewrite split_children; apply in_or_app; right; now left.
Qed.

Lemma detach_tree_shape : tree_shape (detach h this child (before ++ after)).
Proof.
  apply tree_shape_intro.
  - intros n c Hc; apply detach_edge in Hc; destruct Hc as [Hc Hne].
    rewrite detach_parent.
    destruct (Nat.eqb_spec c child); [contradiction|].
    now apply (child_parent h shape).
  - intros n c; rewrite detach_parent, detach_children.
    destruct (Nat.eqb_spec c child) as [-> | Hc]; [discriminate|].
    intros Hp; apply (parent_child h shape) in Hp.
    destruct (Nat.eqb_spec n this) as [-> | _]; [|assumption].
    rewrite split_children in Hp; apply in_app_or in Hp; apply in_or_app.
    destruct Hp as [Hp | [Hp | Hp]]; auto; congruence.
  - intros n; rewrite detach_children.
    destruct (Nat.eqb_spec n this) as [-> | _]; [|apply (children_nodup h shape)].
    pose proof (children_nodup h shape this) as Hnd.
    rewrite split_children in Hnd; now apply NoDup_remove_1 in Hnd.
  - intros n (m & Hm & Hd).
    apply (acyclic h shape n); exists m; split.
    + now apply detach_edge in Hm.
    + revert Hd; apply descends_sub; intros a c Hc; now apply detach_edge in Hc.
Qed.
End Detach.

Lemma exec_op_tree_shape (o : op) (s : state) :
  tree_shape (st_heap s) -> op_ok (st_heap s) o ->
  tree_shape (st_heap (final (exec_op o s))).
Proof.
  intros Hs Hok; destruct o as [this child | this child]; simpl in *.
  - destruct Hok as [Hin | [Hp Hd]].
    + now rewrite addChild_rejected.
    + rewrite addChild_accepted.
      * now apply attach_tree_shape.
      * now apply attach_child_fresh.
  - destruct (in_dec Nat.eq_dec child (_children (st_heap s this))) as [Hin | Hout].
    + destruct (removeChild_found this child s Hin) as (before & after & El & _ & ->).
      now apply detach_tree_shape.
    + now rewrite removeChild_absent.
Qed.

Lemma run_tree_shape (ops : list op) (s : state) :
  tree_shape (st_heap s) -> guarded ops s -> tree_shape (st_heap (run ops s)).
Proof.
  revert s; induction ops as [|o rest IH]; intros s Hs Hg; simpl; [assumption|].
  destruct Hg as [Hok Hg]; apply IH; [now apply exec_op_tree_shape | assumption].
Qed.

(** C5, as the code has it: the tree shape holds after every sequence of
    [addChild] and [removeChild] calls on fresh nodes in which each
    [addChild] is given a child that the node already has, or a child that
    has no parent and is neither the node itself nor one of its ancestors.
    Every child then has its node as parent and conversely, no node is a child
    twice or of two nodes, and no node is its own ancestor. *)
Theorem guarded_calls_keep_tree_shape (ops : list op) :
  guarded ops fresh_state ->
  tree_shape (st_heap (run ops fresh_state)).
Proof. apply run_tree_shape, tree_shape_fresh. Qed.

(** C5: [0.addChild(2)] and then [1.addChild(2)] leave 2 among the children
    of both 0 and 1, with 1 as its parent. *)
Lemma second_parent_breaks_tree_shape :
  ~ tree_shape (st_heap (run [AddChild 0 2; AddChild 1 2] fresh_state)).
Proof.
  intros H; pose proof (child_parent _ H 0 2) as Hp.
  vm_compute in Hp; specialize (Hp (or_introl eq_refl)); discriminate.
Qed.

(** [0.addChild(0)] makes 0 its own child. *)
Lemma self_child_is_a_cycle :
  ancestor (st_heap (run [AddChild 0 0] fresh_state)) 0 0.
Proof. exists 0; split; [now left | constructor]. Qed.

(** The condition on [addChild] cannot be widened: from a state that has the
    tree shape, any other call of [addChild] loses it, by giving the child a
    second parent or by closing a cycle. *)
Lemma addChild_outside_guard_loses_tree_shape (this child : loc) (s : state) :
  tree_shape (st_heap s) ->
  ~ op_ok (st_heap s) (AddChild this child) ->
  ~ tree_shape (st_heap (final (addChild this child s))).
Proof.
  intros Hs Hnok Hafter; simpl in Hnok.
  assert (Hout : ~ In child (_children (st_heap s this))) by tauto.
  rewrite addChild_accepted in Hafter by assumption; simpl in Hafter.
  assert (Hthis : In child (_children (attach (st_heap s) this child this))).
  { rewrite attach_children_this; apply in_or_app; right; now left. }
  destruct (_parent (st_heap s child)) as [p|] eqn:Hp.
  - assert (Hin : In child (_children (st_heap s p)))
      by now apply (parent_child _ Hs).
    assert (Hne : p <> this) by (intros ->; contradiction).
    apply Hne, (one_parent _ Hafter p this child); [|assumption].
    rewrite attach_children.
    destruct (Nat.eqb_spec p this); [contradiction | assumption].
  - apply Hnok; right; split; [reflexivity|]; intros Hd.
    apply (acyclic _ Hafter this); exists child; split; [assumption|].
    revert Hd; apply descends_sub; intros n c Hc; rewrite attach_children.
    destruct (Nat.eqb_spec n this) as [-> | _]; [apply in_or_app; now left | assumption].
Qed.

(** ** The properties on the scene *)

Lemma removeChild_absent_throws_witness :
  ~ In 2 (_children (st_heap Scene.scene 0)) /\
  removeChild 0 2 Scene.scene = TypeError Scene.scene /\
  removeChild 0 2 Scene.scene <> Ok tt Scene.scene.
Proof.
  assert (H : ~ In 2 (_children (st_heap Scene.scene 0))).
  { simpl; intros [E | []]; discriminate. }
  split; [exact H | exact (removeChild_absent_throws 0 2 Scene.scene H)].
Defined.

Lemma rejected_calls_witness :
  addComponent 1 (mkComponent 20 Scene.Transform None) Scene.scene
  = Ok tt (warned Scene.scene "Component already attached") /\
  addChild 1 3 Scene.scene = Ok tt (warned Scene.scene "Child already attached") /\
  removeComponent 1 Kinematic Scene.scene
  = Ok tt (warned Scene.scene "Component not found").
Proof.
  destruct (rejected_calls_warn_and_do_nothing 1 Scene.scene) as (H1 & H2 & H3).
  split; [|split].
  - apply H1; exists Scene.c1; split; [simpl; auto | reflexivity].
  - apply H2; simpl; auto.
  - apply H3; simpl; intros c [<- | []]; reflexivity.
Defined.

Lemma Init_witness :
  Init 3 0 (mkState (st_heap Scene.scene) [])
  = Ok tt (mkState (st_heap Scene.scene)
             [CompInit Scene.c1; CompInit Scene.c2; CompInit Scene.c3]).
Proof.
  apply (Init_components_then_children 2 3 (st_heap Scene.scene) 0 []);
    [reflexivity | lia].
Defined.

Lemma addChild_twice_witness :
  count_occ Nat.eq_dec
    (_children (st_heap (final (addChild 0 1 (final (addChild 0 1 fresh_state)))) 0)) 1 = 1 /\
  _parent (st_heap (final (addChild 0 1 (final (addChild 0 1 fresh_state)))) 1) = Some 0.
Proof.
  assert (H1 : count_occ Nat.eq_dec (_children (st_heap fresh_state 0)) 1 <= 1)
    by (simpl; lia).
  assert (H2 : In 1 (_children (st_heap fresh_state 0)) ->
               _parent (st_heap fresh_state 1) = Some 0)
    by (simpl; intros []).
  destruct (addChild_twice 0 1 fresh_state H1 H2) as (_ & Hc & _ & Hp).
  split; [exact Hc | exact Hp].
Defined.

Lemma guarded_calls_witness :
  tree_shape (st_heap (run [AddChild 0 1; AddChild 0 1; AddChild 1 2;
                            RemoveChild 0 1; RemoveChild 0 7]
                         fresh_state)).
Proof.
  apply guarded_calls_keep_tree_shape; simpl; repeat split.
  - right; split; [reflexivity|].
    intros H; apply descends_leaf in H; [discriminate | reflexivity].
  - left; left; reflexivity.
  - right; split; [reflexivity|].
    intros H; apply descends_leaf in H; [discriminate | reflexivity].
Defined.

(** [getComponentinChildren] on the node 1 of the scene, whose two children
    both have a [Transform]: the earlier class returns the component of the
    last child, this one returns [null]. *)
Example getComponentinChildren_scene :
  getComponentinChildren 1 Scene.Transform Scene.scene = Ok None Scene.scene /\
  Legacy.getComponentinChildren 1 Scene.Transform Scene.scene
  = Ok (Some Scene.c3) Scene.scene.
Proof. split; reflexivity. Qed.

(** [getComponentsInChildren] looks one level down: from the root 0 it finds
    the component of 1 and not those of 2 and 3. *)
Example getComponentsInChildren_scene :
  getComponentsInChildren 0 Scene.Transform Scene.scene
  = Ok [Some Scene.c1] Scene.scene /\
  getComponentsInChildren 1 Scene.Transform Scene.scene
  = Ok [Some Scene.c2; Some Scene.c3] Scene.scene.
Proof. split; reflexivity. Qed.

(** * Further properties of the methods *)

(** ** Attaching and removing components *)

Lemma inherits_Class (n : string) (t : cls) :
  inherits (Class n) t = cls_eqb (Class n) t.
Proof. simpl; apply orb_false_r. Qed.

Lemma inherits_Extends (n : string) (super t : cls) :
  inherits (Extends n super) t = cls_eqb (Extends n super) t || inherits super t.
Proof. reflexivity. Qed.

Lemma inherits_trans (k s t : cls) :
  inherits k s = true -> inherits s t = true -> inherits k t = true.
Proof.
  induction k as [n | n super IH]; intros Hks Hst.
  - rewrite inherits_Class in Hks; apply cls_eqb_eq in Hks; now subst.
  - rewrite inherits_Extends in Hks; apply orb_true_iff in Hks.
    destruct Hks as [Hks | Hks].
    + apply cls_eqb_eq in Hks; now subst.
    + rewrite inherits_Extends, (IH Hks Hst); apply orb_true_r.
Qed.

Lemma addComponent_has_class (this : loc) (c : Component) (s : state) :
  exists x, In x (_components (st_heap (final (addComponent this c s)) this)) /\
            instanceof x (constructor c) = true.
Proof.
  rewrite addComponent_components.
  destruct (existsb _ _) eqn:E.
  - apply existsb_exists in E; exact E.
  - exists (set_entity c this); split.
    + apply in_or_app; right; now left.
    + apply inherits_refl.
Qed.

(** X1: After [addComponent(c)], whether [c] was attached or rejected,
    [hasComponent(type)] is true for the class of [c] and for every class that
    it extends. *)
Theorem addComponent_then_hasComponent (this : loc) (c : Component) (type : cls)
    (s : state) :
  instanceof c type = true ->
  let s' := final (addComponent this c s) in
  hasComponent this type s' = Ok true s'.
Proof.
  intros Ht s'; unfold hasComponent, read; f_equal.
  destruct (addComponent_has_class this c s) as (x & Hx & Hi).
  apply existsb_exists; exists x; split; [exact Hx|].
  exact (inherits_trans _ _ _ Hi Ht).
Qed.

(** X2: A second [addComponent] with a component of the same class is always
    rejected, whatever the first call did: it logs the warning and leaves the
    store as the first call left it. *)
Theorem addComponent_same_class_twice (this : loc) (c c' : Component) (s : state) :
  constructor c' = constructor c ->
  let s' := final (addComponent this c s) in
  addComponent this c' s' = Ok tt (warned s' "Component already attached").
Proof.
  intros Hc s'; apply addComponent_rejected; rewrite Hc.
  apply addComponent_has_class.
Qed.

Lemma find_app_none {A} (p : A -> bool) (before : list A) (x : A) (after : list A) :
  (forall y, In y before -> p y = false) -> p x = true ->
  find p (before ++ x :: after) = Some x.
Proof.
  intros Hb Hx; induction before as [|b r IH]; simpl.
  - now rewrite Hx.
  - rewrite (Hb b) by now left.
    apply IH; intros y Hy; apply Hb; now right.
Qed.

Lemma findIndex_from_app {A} (p : A -> bool) (before : list A) (x : A)
    (after : list A) (k : Z) :
  (forall y, In y before -> p y = false) -> p x = true ->
  findIndex_from p (before ++ x :: after) k = (k + Z.of_nat (List.length before))%Z.
Proof.
  intros Hb Hx; revert k; induction before as [|b r IH]; intros k; simpl.
  - rewrite Hx; lia.
  - rewrite (Hb b) by now left.
    rewrite IH by (intros y Hy; apply Hb; now right); lia.
Qed.

(** X3: When no attached component is an instance of the class of [c],
    [addComponent(c)] attaches it with its back reference set to the node, and
    [getComponent] of that class then returns it. *)
Theorem addComponent_then_getComponent (this : loc) (c : Component) (s : state) :
  (forall x, In x (_components (st_heap s this)) ->
             instanceof x (constructor c) = false) ->
  let s' := final (addComponent this c s) in
  getComponent this (constructor c) s' = Ok (Some (set_entity c this)) s' /\
  entity (set_entity c this) = Some this /\
  _components (st_heap s' this) = _components (st_heap s this) ++ [set_entity c this].
Proof.
  intros H s'.
  assert (E : _components (st_heap s' this)
              = _components (st_heap s this) ++ [set_entity c this]).
  { unfold s'; rewrite addComponent_components.
    replace (existsb _ _) with false; [reflexivity|].
    symmetry; now apply existsb_false_iff. }
  split; [|split; [reflexivity | exact E]].
  unfold getComponent, read; f_equal; rewrite E.
  apply find_app_none; [exact H | apply inherits_refl].
Qed.

(** The store after [removeComponent] has found a match. *)
Lemma removeComponent_found (this : loc) (type : cls) (s : state)
    (before after : list Component) (x : Component) :
  _components (st_heap s this) = before ++ x :: after ->
  (forall y, In y before -> instanceof y type = false) ->
  instanceof x type = true ->
  removeComponent this type s
  = Ok tt (mkState (upd (st_heap s) this
                      (set_components (st_heap s this) (before ++ after)))
                   (st_trace s)).
Proof.
  intros E Hb Hx; unfold removeComponent, bind, read, findIndex.
  rewrite E, findIndex_from_app by assumption; simpl (0 + _)%Z.
  destruct (Z.gtb_spec (Z.of_nat (List.length before)) (-1)); [|lia].
  unfold write; now rewrite E, splice1_app_length.
Qed.

(** X4: [removeComponent(type)] takes out the first attached component that is an
    instance of [type] and nothing else: the components before and after it
    keep their order, no warning is logged, and the children and the parent of
    the node are as before. *)
Theorem removeComponent_removes_first_match (this : loc) (type : cls) (s : state) :
  (exists x, In x (_components (st_heap s this)) /\ instanceof x type = true) ->
  exists before x after s',
    _components (st_heap s this) = before ++ x :: after /\
    (forall y, In y before -> instanceof y type = false) /\
    instanceof x type = true /\
    removeComponent this type s = Ok tt s' /\
    _components (st_heap s' this) = before ++ after /\
    _children (st_heap s' this) = _children (st_heap s this) /\
    _parent (st_heap s' this) = _parent (st_heap s this) /\
    st_trace s' = st_trace s.
Proof.
  intros Hex.
  assert (Hf : existsb (fun c => instanceof c type) (_components (st_heap s this)) = true)
    by (apply existsb_exists; exact Hex).
  apply find_existsb in Hf; destruct Hf as [x Hf].
  destruct (find_first _ _ _ Hf) as (before & after & E & Hx & Hb).
  exists before, x, after; eexists; split; [exact E|]; split; [exact Hb|].
  split; [exact Hx|]; split; [apply (removeComponent_found _ _ _ _ _ _ E Hb Hx)|].
  simpl; rewrite upd_same; repeat split.
Qed.

(** X5: Attaching a component that is accepted and then removing the components
    of its class gives back the components the node had. *)
Theorem addComponent_removeComponent (this : loc) (c : Component) (s : state) :
  (forall x, In x (_components (st_heap s this)) ->
             instanceof x (constructor c) = false) ->
  let s' := final (removeComponent this (constructor c)
                     (final (addComponent this c s))) in
  _components (st_heap s' this) = _components (st_heap s this) /\
  st_trace s' = st_trace s.
Proof.
  intros H; rewrite addComponent_accepted by assumption; simpl final.
  erewrite removeComponent_found with (before := _components (st_heap s this))
                                      (after := []) (x := set_entity c this).
  - simpl; rewrite upd_same; simpl; now rewrite app_nil_r.
  - simpl; now rewrite upd_same.
  - simpl; exact H.
  - apply inherits_refl.
Qed.

Lemma ForallOrdPairs_remove {A} (R : A -> A -> Prop) (before after : list A) (x : A) :
  ForallOrdPairs R (before ++ x :: after) -> ForallOrdPairs R (before ++ after).
Proof.
  induction before as [|b r IH]; simpl; intros H; inversion H; subst.
  - assumption.
  - constructor; [|auto].
    apply Forall_app in H2; destruct H2 as [H2 H2'].
    apply Forall_app; split; [assumption | now inversion H2'].
Qed.

Lemma removeComponent_components (this : loc) (type : cls) (s : state) :
  _components (st_heap (final (removeComponent this type s)) this)
  = _components (st_heap s this) \/
  exists before x after,
    _components (st_heap s this) = before ++ x :: after /\
    _components (st_heap (final (removeComponent this type s)) this) = before ++ after.
Proof.
  destruct (existsb (fun c => instanceof c type) (_components (st_heap s this))) eqn:E.
  - apply find_existsb in E; destruct E as [x Hf].
    destruct (find_first _ _ _ Hf) as (before & after & E & Hx & Hb).
    right; exists before, x, after; split; [exact E|].
    rewrite (removeComponent_found _ _ _ _ _ _ E Hb Hx); simpl; now rewrite upd_same.
  - left; rewrite removeComponent_missing; [reflexivity|].
    now apply existsb_false_iff.
Qed.

(** X6: After any sequence of [addComponent] and [removeComponent] calls on a
    fresh node, no attached component is an instance of the class of a
    component attached after it, and at most one attached component has a
    given class as its own. *)
Theorem component_calls_keep_one_per_class (this : loc) (ops : list comp_op) (C : cls) :
  let comps := _components (st_heap (run_comp_ops this ops fresh_state) this) in
  no_earlier_instance comps /\
  List.length (filter (fun c => cls_eqb (constructor c) C) comps) <= 1.
Proof.
  assert (H : forall s, no_earlier_instance (_components (st_heap s this)) ->
              no_earlier_instance (_components (st_heap (run_comp_ops this ops s) this))).
  { induction ops as [|o rest IH]; intros s Hs; simpl; [assumption|].
    apply IH; destruct o as [c | type]; simpl.
    - apply (addComponents_no_earlier_instance this [c] s Hs).
    - destruct (removeComponent_components this type s) as [-> | (b & x & a & E & ->)];
        [assumption|].
      rewrite E in Hs; now apply ForallOrdPairs_remove in Hs. }
  intros comps; assert (Hc : no_earlier_instance comps) by (apply H; constructor).
  split; [assumption | now apply no_earlier_instance_one_per_class].
Qed.

(** ** [Update] *)

(** X7: [Update()] calls [Update] on the components of the node, in the order
    they were attached, and on nothing else: the components of the children
    are not called, and the store is left as it was. *)
Theorem Update_components_only (this : loc) (h : heap) (tr : list event) :
  Update this (mkState h tr)
  = Ok tt (mkState h (tr ++ map CompUpdate (_components (h this)))).
Proof. apply forEach_components_emit. Qed.

(** ** The children that have a component *)

Lemma fold_push_filter {A} (p : A -> bool) (l acc : list A) :
  fold_left (fun children child => if p child then children ++ [child] else children)
            l acc
  = acc ++ filter p l.
Proof.
  revert acc; induction l as [|x r IH]; intros acc; simpl.
  - now rewrite app_nil_r.
  - rewrite IH; destruct (p x); [now rewrite <- app_assoc | reflexivity].
Qed.

(** X8: [getChildWithComponent] and [getChildrenWithComponent] return the same
    array: the direct children that have a component that is an instance of
    [type], in child order (all of them, also for the method named in the
    singular); neither changes the store. *)
Theorem getChildWithComponent_same_as_plural (this : loc) (type : cls) (s : state) :
  getChildrenWithComponent this type s = getChildWithComponent this type s /\
  getChildWithComponent this type s
  = Ok (filter (fun child =>
                  existsb (fun c => instanceof c type) (_components (st_heap s child)))
               (_children (st_heap s this))) s.
Proof.
  split; [|reflexivity].
  unfold getChildrenWithComponent, getChildWithComponent.
  rewrite (forEach_pure _ _
             (fun children child =>
                if existsb (fun c => instanceof c type) (_components (st_heap s child))
                then children ++ [child] else children)).
  - unfold children_of; now rewrite fold_push_filter.
  - intros acc child _; unfold bind, hasComponent, read, ret.
    destruct (existsb _ _); reflexivity.
Qed.

(** ** Attaching and removing children *)

Lemma removeChild_found_at (this child : loc) (s : state) (before after : list loc) :
  _children (st_heap s this) = before ++ child :: after ->
  ~ In child before ->
  removeChild this child s
  = Ok tt (mkState (detach (st_heap s) this child (before ++ after)) (st_trace s)).
Proof.
  intros El Hb.
  assert (Hi : findIndex (fun c => Nat.eqb c child) (_children (st_heap s this))
               = Z.of_nat (List.length before)).
  { unfold findIndex; rewrite El, findIndex_from_app; [reflexivity | | apply Nat.eqb_refl].
    intros y Hy; apply Nat.eqb_neq; intros ->; contradiction. }
  assert (Hg : (Z.of_nat (List.length before) >? -1)%Z = true)
    by (apply Z.gtb_lt; lia).
  assert (Ec : _children (upd (st_heap s) child
                            (set_parent (st_heap s child) None) this)
               = before ++ child :: after).
  { unfold upd; destruct (Nat.eqb_spec this child) as [E|E]; simpl;
      [rewrite E in El|]; exact El. }
  unfold removeChild, bind, read; rewrite Hi, Hg, El, array_get_app_length.
  unfold write, detach; cbn [st_heap st_trace].
  now rewrite Ec, splice1_app_length.
Qed.

Lemma detach_other (h : heap) (this child : loc) (rest : list loc) (n : loc) :
  n <> this -> n <> child -> detach h this child rest n = h n.
Proof. intros H1 H2; unfold detach; now rewrite !upd_other. Qed.

Lemma detach_components (h : heap) (this child : loc) (rest : list loc) (n : loc) :
  _components (detach h this child rest n) = _components (h n).
Proof.
  unfold detach, upd.
  destruct (Nat.eqb_spec n this) as [-> | _]; simpl;
    [destruct (Nat.eqb_spec this child) as [-> | _]
    |destruct (Nat.eqb_spec n child) as [-> | _]]; reflexivity.
Qed.

Lemma detach_name (h : heap) (this child : loc) (rest : list loc) (n : loc) :
  _name (detach h this child rest n) = _name (h n).
Proof.
  unfold detach, upd.
  destruct (Nat.eqb_spec n this) as [-> | _]; simpl;
    [destruct (Nat.eqb_spec this child) as [-> | _]
    |destruct (Nat.eqb_spec n child) as [-> | _]]; reflexivity.
Qed.

(** X9: [removeChild(child)] of a child that is among the children returns
    normally, clears the parent of the child and takes its first occurrence out
    of the children, which keep their order; when the children hold no
    duplicate the child is no longer among them. *)
Theorem removeChild_detaches (this child : loc) (s : state) :
  In child (_children (st_heap s this)) ->
  exists before after s',
    _children (st_heap s this) = before ++ child :: after /\
    ~ In child before /\
    removeChild this child s = Ok tt s' /\
    _children (st_heap s' this) = before ++ after /\
    _parent (st_heap s' child) = None /\
    st_trace s' = st_trace s /\
    (NoDup (_children (st_heap s this)) -> ~ In child (_children (st_heap s' this))).
Proof.
  intros Hin.
  destruct (removeChild_found this child s Hin) as (before & after & El & Hb & Hr).
  exists before, after; eexists; split; [exact El|]; split; [exact Hb|].
  split; [exact Hr|]; simpl.
  rewrite detach_children, detach_parent, !Nat.eqb_refl; repeat split.
  intros Hnd; rewrite El in Hnd; now apply NoDup_remove_2 in Hnd.
Qed.

(** X10: Attaching a child that was not among the children and removing it again
    gives back the children of the node; the child ends with no parent,
    whatever its parent was before, and no other node is touched. *)
Theorem addChild_removeChild (this child : loc) (s : state) :
  ~ In child (_children (st_heap s this)) ->
  exists s',
    removeChild this child (final (addChild this child s)) = Ok tt s' /\
    _children (st_heap s' this) = _children (st_heap s this) /\
    _parent (st_heap s' child) = None /\
    (forall n, n <> this -> n <> child -> st_heap s' n = st_heap s n) /\
    st_trace s' = st_trace s.
Proof.
  intros Hout; rewrite addChild_accepted by assumption; simpl final.
  eexists; split.
  - apply removeChild_found_at with (before := _children (st_heap s this)) (after := []).
    + simpl; apply attach_children_this.
    + exact Hout.
  - simpl; rewrite detach_children, detach_parent, !Nat.eqb_refl, app_nil_r.
    repeat split.
    intros n Hn Hc; rewrite detach_other by assumption.
    unfold attach; now rewrite !upd_other.
Qed.

(** X11: [addChild(child)] does not take the child away from the node that had
    it: the children of the former parent still hold it, while its parent
    reference is now the new node. *)
Theorem addChild_leaves_former_parent (this old child : loc) (s : state) :
  old <> this ->
  In child (_children (st_heap s old)) ->
  ~ In child (_children (st_heap s this)) ->
  let s' := final (addChild this child s) in
  _children (st_heap s' old) = _children (st_heap s old) /\
  _children (st_heap s' this) = _children (st_heap s this) ++ [child] /\
  _parent (st_heap s' child) = Some this.
Proof.
  intros Hne Hold Hout s'; unfold s'.
  rewrite addChild_accepted by assumption; simpl.
  rewrite !attach_children, attach_parent, !Nat.eqb_refl.
  destruct (Nat.eqb_spec old this); [contradiction | repeat split].
Qed.

Lemma addChild_weak_shape (this child : loc) (s : state) :
  weak_shape (st_heap s) -> weak_shape (st_heap (final (addChild this child s))).
Proof.
  intros [Hnd Hpc].
  destruct (in_dec Nat.eq_dec child (_children (st_heap s this))) as [Hin | Hout].
  - rewrite addChild_rejected by assumption; split; assumption.
  - rewrite addChild_accepted by assumption; simpl; split.
    + intros n; rewrite attach_children.
      destruct (Nat.eqb n this); [|apply Hnd].
      apply NoDup_app; repeat split; [apply Hnd | repeat constructor; intros [] |].
      intros x Hx [<- | []]; contradiction.
    + intros n c; rewrite attach_parent, attach_children.
      destruct (Nat.eqb_spec c child) as [-> | Hc].
      * intros [= <-]; rewrite Nat.eqb_refl; apply in_or_app; right; now left.
      * intros Hp; apply Hpc in Hp.
        destruct (Nat.eqb_spec n this) as [-> | _]; [apply in_or_app|]; auto.
Qed.

Lemma removeChild_weak_shape (this child : loc) (s : state) :
  weak_shape (st_heap s) -> weak_shape (st_heap (final (removeChild this child s))).
Proof.
  intros [Hnd Hpc].
  destruct (in_dec Nat.eq_dec child (_children (st_heap s this))) as [Hin | Hout].
  - destruct (removeChild_found this child s Hin) as (before & after & El & _ & ->).
    simpl; split.
    + intros n; rewrite detach_children.
      destruct (Nat.eqb_spec n this) as [-> | _]; [|apply Hnd].
      specialize (Hnd this); rewrite El in Hnd; now apply NoDup_remove_1 in Hnd.
    + intros n c; rewrite detach_parent, detach_children.
      destruct (Nat.eqb_spec c child) as [-> | Hc]; [discriminate|].
      intros Hp; apply Hpc in Hp.
      destruct (Nat.eqb_spec n this) as [-> | _]; [|assumption].
      rewrite El in Hp; apply in_app_or in Hp; apply in_or_app.
      destruct Hp as [Hp | [Hp | Hp]]; auto; congruence.
  - rewrite removeChild_absent by assumption; split; assumption.
Qed.

(** X12: After any sequence of [addChild] and [removeChild] calls on fresh nodes,
    whatever the arguments and also when a [removeChild] throws and is caught:
    no node is twice among the children of a node, and a node whose parent
    reference is [n] is among the children of [n]. *)
Theorem calls_keep_weak_shape (ops : list op) :
  weak_shape (st_heap (run ops fresh_state)).
Proof.
  assert (H : forall s, weak_shape (st_heap s) -> weak_shape (st_heap (run ops s))).
  { induction ops as [|o rest IH]; intros s Hs; simpl; [assumption|].
    apply IH; destruct o; simpl;
      [now apply addChild_weak_shape | now apply removeChild_weak_shape]. }
  apply H; split; simpl.
  - intros n; constructor.
  - intros n c Hp; discriminate.
Qed.

(** ** [getTree] *)

Lemma fold_push_map {A B} (g : A -> B) (l : list A) (acc : list B) :
  fold_left (fun children child => children ++ [g child]) l acc = acc ++ map g l.
Proof.
  revert acc; induction l as [|x r IH]; intros acc; simpl.
  - now rewrite app_nil_r.
  - now rewrite IH, <- app_assoc.
Qed.

(** X13: On a subtree of height at most [d], with a call stack deeper than [d],
    [getTree()] returns the name of the node with the snapshots of its children
    in child order, recursively, and changes nothing. *)
Theorem getTree_snapshot (d fuel : nat) (this : loc) (s : state) :
  height_le d (st_heap s) this = true ->
  d < fuel ->
  getTree fuel this s = Ok (tree_of d (st_heap s) this) s.
Proof.
  revert fuel this; induction d as [|d IH]; intros fuel this Hh Hf;
    (destruct fuel as [|fuel]; [lia|]); simpl in Hh |- *; unfold bind, read.
  - destruct (_children (st_heap s this)) eqn:E; [|discriminate].
    unfold forEach, children_of; rewrite E; reflexivity.
  - rewrite (forEach_pure _ _
               (fun children child => children ++ [tree_of d (st_heap s) child])).
    + unfold children_of; now rewrite fold_push_map.
    + intros acc child Hin; unfold bind, ret.
      rewrite forallb_forall in Hh.
      rewrite (IH fuel child (Hh child Hin)) by lia; reflexivity.
Qed.

(** ** Recursion on a cycle *)

Section ForEachOverflow.
Context {A B : Type}.
Variable arr : state -> list A.
Variable callback : B -> A -> M B.
Variable I : state -> Prop.
Variable l : list A.
Hypothesis arr_I : forall s, I s -> arr s = l.
Hypothesis callback_I : forall acc v s, I s ->
  (exists a s', callback acc v s = Ok a s' /\ I s') \/
  (exists s', callback acc v s = RangeError s').

Lemma forEach_loop_ok_or_overflow (n k : nat) (acc : B) (s : state) :
  I s ->
  (exists a s', forEach_loop arr callback k n acc s = Ok a s' /\ I s') \/
  (exists s', forEach_loop arr callback k n acc s = RangeError s').
Proof.
  revert k acc s; induction n as [|n IH]; intros k acc s Hs; simpl.
  - left; exists acc, s; split; [reflexivity | assumption].
  - destruct (nth_error (arr s) k) as [v|]; [|now apply IH].
    unfold bind.
    destruct (callback_I acc v s Hs) as [(a & s' & -> & Hs') | (s' & ->)].
    + now apply IH.
    + right; eauto.
Qed.

(** An element on which the callback overflows makes the loop overflow, at
    that element or before. *)
Lemma forEach_loop_overflow (j : nat) (m : A) :
  nth_error l j = Some m ->
  (forall acc s, I s -> exists s', callback acc m s = RangeError s') ->
  forall n k acc s, I s -> k <= j < k + n ->
    exists s', forEach_loop arr callback k n acc s = RangeError s'.
Proof.
  intros Hj Hm; induction n as [|n IH]; intros k acc s Hs Hk; [lia|]; simpl.
  rewrite (arr_I s Hs).
  destruct (Nat.eq_dec k j) as [-> | Hne].
  - rewrite Hj; unfold bind.
    destruct (Hm acc s Hs) as (s' & ->); eauto.
  - destruct (nth_error l k) as [v|] eqn:E.
    + unfold bind.
      destruct (callback_I acc v s Hs) as [(a & s' & -> & Hs') | (s' & ->)];
        [apply IH; [assumption | lia] | eauto].
    + apply nth_error_None in E.
      assert (j < List.length l) by (apply nth_error_Some; congruence); lia.
Qed.

Lemma forEach_overflow (m : A) :
  In m l ->
  (forall acc s, I s -> exists s', callback acc m s = RangeError s') ->
  forall acc s, I s -> exists s', forEach arr callback acc s = RangeError s'.
Proof.
  intros Hin Hm acc s Hs; apply In_nth_error in Hin; destruct Hin as [j Hj].
  unfold forEach; rewrite (arr_I s Hs).
  apply (forEach_loop_overflow j m Hj Hm); [assumption|].
  assert (j < List.length l) by (apply nth_error_Some; congruence); lia.
Qed.

Lemma forEach_ok_or_overflow (acc : B) (s : state) :
  I s ->
  (exists a s', forEach arr callback acc s = Ok a s' /\ I s') \/
  (exists s', forEach arr callback acc s = RangeError s').
Proof. intros Hs; now apply forEach_loop_ok_or_overflow. Qed.
End ForEachOverflow.

(** A proper ancestor of [x] has a child that is [x] or a proper ancestor of
    [x]: on a cycle through [x], one that is again a proper ancestor of [x]. *)
Lemma ancestor_child (h : heap) (x a : loc) :
  ancestor h x x -> ancestor h a x ->
  exists m, In m (_children (h a)) /\ ancestor h m x.
Proof.
  intros Hx (m & Hm & Hd); exists m; split; [assumption|].
  destruct Hd as [m | m m' y Hm' Hd]; [assumption|].
  exists m'; auto.
Qed.

Lemma Init_ok_or_overflow (fuel : nat) (this : loc) (s : state) :
  (exists u s', Init fuel this s = Ok u s' /\ st_heap s' = st_heap s) \/
  (exists s', Init fuel this s = RangeError s').
Proof.
  revert this s; induction fuel as [|fuel IH]; intros this [h tr]; simpl.
  - right; eauto.
  - unfold bind, Component_Init; rewrite forEach_components_emit.
    apply (forEach_ok_or_overflow (children_of this) _ (fun s => st_heap s = h)).
    + intros acc v s Hs; destruct (IH v s) as [(u & s' & E & Hh) | R].
      * left; exists u, s'; split; [assumption | congruence].
      * right; assumption.
    + reflexivity.
Qed.

(** X14: On a node that is its own ancestor, [Init()] never returns: whatever the
    depth of the call stack, the recursion exhausts it. *)
Theorem Init_on_cycle_overflows (this : loc) (s : state) (fuel : nat) :
  ancestor (st_heap s) this this ->
  exists s', Init fuel this s = RangeError s'.
Proof.
  intros Hc.
  assert (H : forall a s0, st_heap s0 = st_heap s -> ancestor (st_heap s) a this ->
                           exists s', Init fuel a s0 = RangeError s').
  { induction fuel as [|fuel IH]; intros a [h tr] Hh Ha; simpl in *; subst h.
    - eauto.
    - unfold bind, Component_Init; rewrite forEach_components_emit.
      destruct (ancestor_child _ _ _ Hc Ha) as (m & Hm & Hma).
      apply (forEach_overflow (children_of a) _ (fun s0 => st_heap s0 = st_heap s)
               (_children (st_heap s a))) with (m := m).
      + intros s0 Hs; unfold children_of; now rewrite Hs.
      + intros acc v s0 Hs; destruct (Init_ok_or_overflow fuel v s0)
          as [(u & s' & E & Hh) | R].
        * left; exists u, s'; split; [assumption | congruence].
        * right; assumption.
      + assumption.
      + intros acc s0 Hs; now apply IH.
      + reflexivity. }
  now apply H.
Qed.

Lemma getTree_S (fuel : nat) (this : loc) (s : state) :
  getTree (S fuel) this s
  = match forEach (children_of this)
            (fun (children : list Tree) child =>
               t <- getTree fuel child ;; ret (children ++ [t]))
            [] s with
    | Ok children s' => Ok (mkTree (_name (st_heap s this)) children) s'
    | TypeError s' => TypeError s'
    | RangeError s' => RangeError s'
    end.
Proof. reflexivity. Qed.

Lemma getTree_ok_or_overflow (fuel : nat) (this : loc) (s : state) :
  (exists t, getTree fuel this s = Ok t s) \/
  (exists s', getTree fuel this s = RangeError s').
Proof.
  revert this; induction fuel as [|fuel IH]; intros this.
  - right; simpl; eauto.
  - rewrite getTree_S.
    destruct (forEach_ok_or_overflow (children_of this)
                (fun (children : list Tree) child =>
                   t <- getTree fuel child ;; ret (children ++ [t]))
                (fun s0 => s0 = s)) with (acc := @nil Tree) (s := s)
      as [(a & s' & E & ->) | (s' & E)]; try rewrite E.
    + intros acc v s0 ->; unfold bind, ret.
      destruct (IH v) as [(t & ->) | (s' & ->)]; [left | right]; eauto.
    + reflexivity.
    + left; eauto.
    + right; eauto.
Qed.

(** X15: On a node that is its own ancestor, [getTree()] never returns either. *)
Theorem getTree_on_cycle_overflows (this : loc) (s : state) (fuel : nat) :
  ancestor (st_heap s) this this ->
  exists s', getTree fuel this s = RangeError s'.
Proof.
  intros Hc.
  assert (H : forall a, ancestor (st_heap s) a this ->
                        exists s', getTree fuel a s = RangeError s').
  { induction fuel as [|fuel IH]; intros a Ha.
    - simpl; eauto.
    - rewrite getTree_S.
      destruct (ancestor_child _ _ _ Hc Ha) as (m & Hm & Hma).
      destruct (forEach_overflow (children_of a)
                  (fun (children : list Tree) child =>
                     t <- getTree fuel child ;; ret (children ++ [t]))
                  (fun s0 => s0 = s) (_children (st_heap s a))) with (m := m)
                  (acc := @nil Tree) (s := s) as (s' & E); try rewrite E.
      + now intros s0 ->.
      + intros acc v s0 ->; unfold bind, ret.
        destruct (getTree_ok_or_overflow fuel v s) as [(t & ->) | (s' & ->)];
          [left | right]; eauto.
      + assumption.
      + intros acc s0 ->; unfold bind.
        destruct (IH m Hma) as (s' & ->); eauto.
      + reflexivity.
      + eauto. }
  now apply H.
Qed.

(** ** [Destroy] on a node whose children are leaves *)

Lemma list_pair_ind {A} (P : list A -> Prop) :
  P [] -> (forall a, P [a]) -> (forall a b r, P r -> P (a :: b :: r)) ->
  forall l, P l.
Proof.
  intros H0 H1 H2 l.
  assert (H : P l /\ forall a, P (a :: l)).
  { induction l as [|x r [IH1 IH2]]; split; auto. }
  apply H.
Qed.

Lemma In_evens {A} (l : list A) (x : A) : In x (evens l) -> In x l.
Proof.
  induction l as [| a | a b r IH] using list_pair_ind; simpl; auto.
  intros [H | H]; auto.
Qed.

Lemma In_odds {A} (l : list A) (x : A) : In x (odds l) -> In x l.
Proof.
  induction l as [| a | a b r IH] using list_pair_ind; simpl; auto.
  intros [H | H]; auto.
Qed.

Lemma evens_odds_disjoint {A} (l : list A) (x : A) :
  NoDup l -> In x (evens l) -> In x (odds l) -> False.
Proof.
  induction l as [| a | a b r IH] using list_pair_ind; simpl; auto.
  intros Hnd He Ho.
  inversion Hnd as [|? ? Ha Hnd']; subst; inversion Hnd' as [|? ? Hb Hnd'']; subst.
  destruct He as [<- | He], Ho as [<- | Ho].
  - apply Ha; now left.
  - apply Ha; right; now apply In_odds.
  - apply Hb; now apply In_evens.
  - now apply IH.
Qed.

Lemma nth_error_app_length {A} (before after : list A) (x : A) :
  nth_error (before ++ x :: after) (List.length before) = Some x.
Proof. rewrite nth_error_app2, Nat.sub_diag; auto. Qed.

Lemma forEach_loop_past_end {A B} (arr : state -> list A) (callback : B -> A -> M B)
    (n k : nat) (acc : B) (s : state) :
  List.length (arr s) <= k ->
  forEach_loop arr callback k n acc s = Ok acc s.
Proof.
  revert k; induction n as [|n IH]; intros k Hk; simpl; [reflexivity|].
  assert (E : nth_error (arr s) k = None) by now apply nth_error_None.
  rewrite E; apply IH; lia.
Qed.

Lemma forEach_nil {A B} (arr : state -> list A) (callback : B -> A -> M B)
    (acc : B) (s : state) :
  arr s = [] -> forEach arr callback acc s = Ok acc s.
Proof. intros E; unfold forEach; now rewrite E. Qed.

Lemma Destroy_S (fuel : nat) (this : loc) (s : state) :
  Destroy (S fuel) this s
  = match forEach (components_of this)
            (fun _ component => Component_Destroy component) tt s with
    | Ok _ s1 =>
        match forEach (children_of this) (fun _ child => Destroy fuel child) tt s1 with
        | Ok _ s2 =>
            match _parent (st_heap s2 this) with
            | None => TypeError s2
            | Some p => removeChild p this s2
            end
        | TypeError s2 => TypeError s2
        | RangeError s2 => RangeError s2
        end
    | TypeError s1 => TypeError s1
    | RangeError s1 => RangeError s1
    end.
Proof.
  simpl; unfold bind, read, throwTypeError.
  destruct (forEach (components_of this) _ tt s) as [u s1 | s1 | s1]; try reflexivity.
  destruct (forEach (children_of this) _ tt s1) as [u' s2 | s2 | s2]; try reflexivity.
  destruct (_parent (st_heap s2 this)); reflexivity.
Qed.

(** A leaf calls [Destroy] on its components and leaves its parent. *)
Lemma Destroy_leaf (fuel : nat) (c p : loc) (h : heap) (tr : list event)
    (before after : list loc) :
  _children (h c) = [] ->
  _parent (h c) = Some p ->
  _children (h p) = before ++ c :: after ->
  ~ In c before ->
  Destroy (S fuel) c (mkState h tr)
  = Ok tt (mkState (detach h p c (before ++ after))
                   (tr ++ map CompDestroy (_components (h c)))).
Proof.
  intros Hl Hp El Hb; rewrite Destroy_S.
  unfold Component_Destroy; rewrite forEach_components_emit.
  rewrite forEach_nil by exact Hl.
  cbn [st_heap]; rewrite Hp.
  now apply removeChild_found_at.
Qed.

Lemma destroy_calls_detach (h : heap) (this child : loc) (rest l : list loc) :
  destroy_calls (detach h this child rest) l = destroy_calls h l.
Proof.
  unfold destroy_calls; apply flat_map_ext; intros c.
  now rewrite detach_components.
Qed.

(** The loop of [Destroy] over the children, from the index [length kept]:
    each child it visits leaves the array, so the loop visits every other
    element of [todo]. *)
Lemma Destroy_children_loop (fuel : nat) (this : loc) (todo : list loc) :
  forall (kept : list loc) (h : heap) (tr : list event) (n : nat),
    _children (h this) = kept ++ todo ->
    NoDup (kept ++ todo) ->
    (forall c, In c todo -> _children (h c) = [] /\ _parent (h c) = Some this) ->
    List.length todo <= n ->
    exists h',
      forEach_loop (children_of this) (fun _ child => Destroy (S fuel) child)
        (List.length kept) n tt (mkState h tr)
      = Ok tt (mkState h' (tr ++ destroy_calls h (evens todo))) /\
      _children (h' this) = kept ++ odds todo /\
      (forall c, In c (evens todo) -> _parent (h' c) = None) /\
      (forall x, x <> this -> ~ In x (evens todo) -> h' x = h x) /\
      _parent (h' this) = _parent (h this) /\
      _components (h' this) = _components (h this).
Proof.
  induction todo as [| a | a b r IH] using list_pair_ind;
    intros kept h tr n Hch Hnd Hleaf Hn.
  - exists h; simpl; rewrite !app_nil_r in *; repeat split; try tauto.
    apply forEach_loop_past_end; unfold children_of; simpl; rewrite Hch; lia.
  - destruct n as [|n]; [simpl in Hn; lia|].
    assert (Ha : ~ In a kept).
    { apply NoDup_remove_2 in Hnd; intros H; apply Hnd, in_or_app; now left. }
    destruct (Hleaf a (or_introl eq_refl)) as [Hla Hpa].
    assert (Hne : a <> this).
    { intros ->; rewrite Hch in Hla; now destruct kept. }
    exists (detach h this a (kept ++ [])); split; [|repeat split].
    + cbn [forEach_loop]; unfold children_of at 1; cbn [st_heap].
      rewrite Hch, nth_error_app_length; unfold bind.
      rewrite (Destroy_leaf fuel a this h tr kept [] Hla Hpa Hch Ha).
      rewrite forEach_loop_past_end.
      * unfold destroy_calls; simpl; now rewrite !app_nil_r.
      * unfold children_of; simpl; rewrite detach_children, Nat.eqb_refl.
        rewrite app_nil_r; lia.
    + simpl; now rewrite detach_children, Nat.eqb_refl.
    + intros c [<- | []]; now rewrite detach_parent, Nat.eqb_refl.
    + intros x Hx Hxa; apply detach_other; [assumption|].
      intros ->; apply Hxa; now left.
    + rewrite detach_parent.
      destruct (Nat.eqb_spec this a); [congruence | reflexivity].
    + apply detach_components.
  - destruct n as [|n]; [simpl in Hn; lia|].
    assert (Ha : ~ In a kept).
    { apply NoDup_remove_2 in Hnd; intros H; apply Hnd, in_or_app; now left. }
    assert (Har : ~ In a (b :: r)).
    { apply NoDup_remove_2 in Hnd; intros H; apply Hnd, in_or_app; now right. }
    destruct (Hleaf a (or_introl eq_refl)) as [Hla Hpa].
    assert (Hne : a <> this).
    { intros ->; rewrite Hch in Hla; now destruct kept. }
    set (h1 := detach h this a (kept ++ b :: r)).
    destruct (IH (kept ++ [b]) h1
                (tr ++ map CompDestroy (_components (h a))) n)
      as (h' & Hloop & Hc' & Hev & Hoth & Hp' & Hcomp').
    + unfold h1; rewrite detach_children, Nat.eqb_refl, <- app_assoc; reflexivity.
    + apply NoDup_remove_1 in Hnd; rewrite <- app_assoc; exact Hnd.
    + intros c Hc.
      assert (Hca : c <> a) by (intros ->; apply Har; right; exact Hc).
      destruct (Hleaf c (or_intror (or_intror Hc))) as [Hlc Hpc].
      assert (Hct : c <> this).
      { intros ->; rewrite Hch in Hlc; now destruct kept. }
      unfold h1; rewrite detach_children, detach_parent.
      destruct (Nat.eqb_spec c this); [contradiction|].
      destruct (Nat.eqb_spec c a); [contradiction | now split].
    + simpl in Hn; lia.
    + exists h'; split; [|repeat split].
      * cbn [forEach_loop]; unfold children_of at 1; cbn [st_heap].
        rewrite Hch, nth_error_app_length; unfold bind.
        rewrite (Destroy_leaf fuel a this h tr kept (b :: r) Hla Hpa Hch Ha).
        fold h1; replace (S (List.length kept)) with (List.length (kept ++ [b]))
          by (rewrite length_app; simpl; lia).
        rewrite Hloop; unfold h1; rewrite destroy_calls_detach.
        unfold destroy_calls; simpl; now rewrite <- app_assoc.
      * rewrite Hc', <- app_assoc; reflexivity.
      * intros c [<- | Hc]; [|now apply Hev].
        rewrite Hoth; [unfold h1; now rewrite detach_parent, Nat.eqb_refl | assumption |].
        intros H; apply Har; right; now apply In_evens.
      * intros x Hx Hxe; rewrite Hoth; [|assumption|].
        -- apply detach_other; [assumption|].
           intros ->; apply Hxe; now left.
        -- intros H; apply Hxe; now right.
      * rewrite Hp'; unfold h1; rewrite detach_parent.
        destruct (Nat.eqb_spec this a); [congruence | reflexivity].
      * rewrite Hcomp'; apply detach_components.
Qed.

Lemma Destroy_teardown (fuel : nat) (this : loc) (h : heap) (tr : list event) :
  leaf_children h this ->
  NoDup (_children (h this)) ->
  exists h',
    forEach (children_of this) (fun _ child => Destroy (S fuel) child) tt
      (mkState h (tr ++ map CompDestroy (_components (h this))))
    = Ok tt (mkState h' (tr ++ map CompDestroy (_components (h this)) ++
                               destroy_calls h (evens (_children (h this))))) /\
    _children (h' this) = odds (_children (h this)) /\
    (forall c, In c (evens (_children (h this))) -> _parent (h' c) = None) /\
    (forall x, x <> this -> ~ In x (evens (_children (h this))) -> h' x = h x) /\
    _parent (h' this) = _parent (h this).
Proof.
  intros Hleaf Hnd.
  destruct (Destroy_children_loop fuel this (_children (h this)) [] h
              (tr ++ map CompDestroy (_components (h this)))
              (List.length (_children (h this))))
    as (h' & Hloop & Hc & He & Ho & Hp & _); auto.
  cbn [List.length app] in Hloop, Hc.
  exists h'; repeat split; auto.
  unfold forEach, children_of at 2; cbn [st_heap].
  rewrite Hloop; now rewrite <- app_assoc.
Qed.

(** X16: [Destroy()] on a node that has a parent and whose children are leaves:
    it calls [Destroy] on the components of the node and then on those of the
    children at the even indices only, which lose their parent; the children at
    the odd indices are never visited and stay attached to the node, which then
    leaves the children of its parent. *)
Theorem Destroy_visits_every_other_child (fuel : nat) (this p : loc) (h : heap)
    (tr : list event) (before after : list loc) :
  leaf_children h this ->
  NoDup (_children (h this)) ->
  _parent (h this) = Some p ->
  _children (h p) = before ++ this :: after ->
  ~ In this before ->
  exists h',
    Destroy (S (S fuel)) this (mkState h tr)
    = Ok tt (mkState h' (tr ++ map CompDestroy (_components (h this)) ++
                               destroy_calls h (evens (_children (h this))))) /\
    _children (h' this) = odds (_children (h this)) /\
    (forall c, In c (evens (_children (h this))) -> _parent (h' c) = None) /\
    (forall c, In c (odds (_children (h this))) -> h' c = h c) /\
    _parent (h' this) = None /\
    _children (h' p) = before ++ after.
Proof.
  intros Hleaf Hnd Hp El Hb.
  assert (Hpl : ~ In p (_children (h this))).
  { intros H; apply Hleaf in H; destruct H as [H _].
    rewrite El in H; now destruct before. }
  assert (Hpt : p <> this).
  { intros E; apply Hpl; rewrite <- E at 1; rewrite El.
    apply in_or_app; right; now left. }
  assert (Htl : ~ In this (_children (h this))).
  { intros H; destruct (Hleaf this H) as [H' _]; rewrite H' in H; exact H. }
  destruct (Destroy_teardown fuel this h tr Hleaf Hnd)
    as (h1 & Hloop & Hc & He & Ho & Hp1).
  assert (Hp1' : h1 p = h p).
  { apply Ho; [assumption | intros H; apply Hpl; now apply In_evens]. }
  exists (detach h1 p this (before ++ after)); split; [|repeat split].
  - rewrite Destroy_S; unfold Component_Destroy.
    rewrite forEach_components_emit, Hloop; cbn [st_heap]; rewrite Hp1, Hp.
    apply removeChild_found_at; [cbn [st_heap]; now rewrite Hp1' | assumption].
  - rewrite detach_children.
    destruct (Nat.eqb_spec this p); [congruence | assumption].
  - intros c Hc'; rewrite detach_parent.
    destruct (Nat.eqb c this); [reflexivity | now apply He].
  - intros c Hc'.
    assert (Hcl : In c (_children (h this))) by now apply In_odds.
    rewrite detach_other.
    + apply Ho; [congruence|].
      intros H; exact (evens_odds_disjoint _ _ Hnd H Hc').
    + congruence.
    + congruence.
  - now rewrite detach_parent, Nat.eqb_refl.
  - now rewrite detach_children, Nat.eqb_refl.
Qed.

(** X17: [Destroy()] on a node without a parent whose children are leaves throws
    a [TypeError], after the same teardown: the components of the node and of
    the children at the even indices have been destroyed and those children
    detached when [this._parent.removeChild] is called on [null]. *)
Theorem Destroy_root_throws (fuel : nat) (this : loc) (h : heap) (tr : list event) :
  leaf_children h this ->
  NoDup (_children (h this)) ->
  _parent (h this) = None ->
  exists h',
    Destroy (S (S fuel)) this (mkState h tr)
    = TypeError (mkState h' (tr ++ map CompDestroy (_components (h this)) ++
                                   destroy_calls h (evens (_children (h this))))) /\
    _children (h' this) = odds (_children (h this)) /\
    (forall c, In c (evens (_children (h this))) -> _parent (h' c) = None).
Proof.
  intros Hleaf Hnd Hp.
  destruct (Destroy_teardown fuel this h tr Hleaf Hnd)
    as (h1 & Hloop & Hc & He & Ho & Hp1).
  exists h1; repeat split; auto.
  rewrite Destroy_S; unfold Component_Destroy.
  rewrite forEach_components_emit, Hloop; cbn [st_heap]; now rewrite Hp1, Hp.
Qed.

(** ** [removeChild] of the earlier class *)

(** X18: When another child follows the one removed, the earlier [removeChild]
    takes the child out of the children and clears the parent of the child that
    follows it, which has moved to its index; the parent of the child removed
    is left as it was. *)
Theorem Legacy_removeChild_clears_next (this child next : loc) (s : state)
    (before after : list loc) :
  _children (st_heap s this) = before ++ child :: next :: after ->
  ~ In child before ->
  exists s',
    Legacy.removeChild this child s = Ok tt s' /\
    _children (st_heap s' this) = before ++ next :: after /\
    _parent (st_heap s' next) = None /\
    (child <> next -> _parent (st_heap s' child) = _parent (st_heap s child)).
Proof.
  intros El Hb.
  assert (Hi : findIndex (fun c => Nat.eqb c child) (_children (st_heap s this))
               = Z.of_nat (List.length before)).
  { unfold findIndex; rewrite El, findIndex_from_app; [reflexivity | | apply Nat.eqb_refl].
    intros y Hy; apply Nat.eqb_neq; intros ->; contradiction. }
  assert (Hg : (Z.of_nat (List.length before) >? -1)%Z = true)
    by (apply Z.gtb_lt; lia).
  eexists; split.
  - unfold Legacy.removeChild, bind, read; rewrite Hi, Hg.
    unfold write; cbn [st_heap st_trace]; rewrite upd_same; cbn [_children set_children].
    rewrite El, splice1_app_length, array_get_app_length; reflexivity.
  - cbn [st_heap]; unfold upd.
    repeat split.
    + destruct (Nat.eqb_spec this next) as [-> | _]; simpl.
      * now rewrite Nat.eqb_refl.
      * now rewrite Nat.eqb_refl.
    + now rewrite Nat.eqb_refl.
    + intros Hne; destruct (Nat.eqb_spec child next); [contradiction|].
      destruct (Nat.eqb_spec child this); subst; reflexivity.
Qed.

(** X19: When the child removed is the last one, the earlier [removeChild] takes
    it out of the children and then throws a [TypeError], the entry at its
    index being [undefined]; the parent of the child is left as it was. *)
Theorem Legacy_removeChild_last_throws (this child : loc) (s : state)
    (before : list loc) :
  _children (st_heap s this) = before ++ [child] ->
  ~ In child before ->
  Legacy.removeChild this child s
  = TypeError (mkState (upd (st_heap s) this (set_children (st_heap s this) before))
                       (st_trace s)).
Proof.
  intros El Hb.
  assert (Hi : findIndex (fun c => Nat.eqb c child) (_children (st_heap s this))
               = Z.of_nat (List.length before)).
  { unfold findIndex; rewrite El, findIndex_from_app; [reflexivity | | apply Nat.eqb_refl].
    intros y Hy; apply Nat.eqb_neq; intros ->; contradiction. }
  assert (Hg : (Z.of_nat (List.length before) >? -1)%Z = true)
    by (apply Z.gtb_lt; lia).
  assert (Hn : array_get before (Z.of_nat (List.length before)) = None).
  { unfold array_get; destruct (Z.ltb_spec (Z.of_nat (List.length before)) 0); [lia|].
    rewrite Nat2Z.id; now apply nth_error_None. }
  unfold Legacy.removeChild, bind, read; rewrite Hi, Hg.
  unfold write; cbn [st_heap st_trace]; rewrite upd_same; cbn [_children set_children].
  rewrite El, splice1_app_length, app_nil_r, Hn; reflexivity.
Qed.

(** X20: The earlier [removeChild] of a child that is not among the children
    throws a [TypeError] and changes nothing. *)
Theorem Legacy_removeChild_absent_throws (this child : loc) (s : state) :
  ~ In child (_children (st_heap s this)) ->
  Legacy.removeChild this child s = TypeError s.
Proof.
  intros H; unfold Legacy.removeChild, bind, read, findIndex.
  rewrite findIndex_from_none; [reflexivity|].
  apply existsb_false_iff; intros x Hx.
  apply Nat.eqb_neq; intros ->; contradiction.
Qed.

(** ** The further properties on the scene *)

Lemma addComponent_then_hasComponent_witness :
  let s' := final (addComponent 1 kinematic Scene.scene) in
  hasComponent 1 CollidableTransform s' = Ok true s'.
Proof.
  apply (addComponent_then_hasComponent 1 kinematic CollidableTransform Scene.scene).
  reflexivity.
Defined.

Lemma addComponent_same_class_twice_witness :
  let s' := final (addComponent 1 kinematic Scene.scene) in
  addComponent 1 (mkComponent 31 Kinematic None) s'
  = Ok tt (warned s' "Component already attached").
Proof.
  apply (addComponent_same_class_twice 1 kinematic (mkComponent 31 Kinematic None)
           Scene.scene).
  reflexivity.
Defined.

Lemma scene_has_no_kinematic :
  forall x, In x (_components (st_heap Scene.scene 1)) ->
            instanceof x (constructor kinematic) = false.
Proof. simpl; intros x [<- | []]; reflexivity. Defined.

Lemma addComponent_then_getComponent_witness :
  let s' := final (addComponent 1 kinematic Scene.scene) in
  getComponent 1 Kinematic s' = Ok (Some (set_entity kinematic 1)) s' /\
  entity (set_entity kinematic 1) = Some 1 /\
  _components (st_heap s' 1) = [Scene.c1; set_entity kinematic 1].
Proof.
  exact (addComponent_then_getComponent 1 kinematic Scene.scene scene_has_no_kinematic).
Defined.

Lemma removeComponent_removes_first_match_witness :
  exists before x after s',
    _components (st_heap Scene.scene 1) = before ++ x :: after /\
    (forall y, In y before -> instanceof y Scene.Transform = false) /\
    instanceof x Scene.Transform = true /\
    removeComponent 1 Scene.Transform Scene.scene = Ok tt s' /\
    _components (st_heap s' 1) = before ++ after /\
    _children (st_heap s' 1) = _children (st_heap Scene.scene 1) /\
    _parent (st_heap s' 1) = _parent (st_heap Scene.scene 1) /\
    st_trace s' = st_trace Scene.scene.
Proof.
  apply (removeComponent_removes_first_match 1 Scene.Transform Scene.scene).
  exists Scene.c1; split; [simpl; auto | reflexivity].
Defined.

Lemma addComponent_removeComponent_witness :
  let s' := final (removeComponent 1 Kinematic
                     (final (addComponent 1 kinematic Scene.scene))) in
  _components (st_heap s' 1) = [Scene.c1] /\ st_trace s' = [].
Proof.
  exact (addComponent_removeComponent 1 kinematic Scene.scene scene_has_no_kinematic).
Defined.

Lemma removeChild_detaches_witness :
  exists before after s',
    _children (st_heap Scene.scene 1) = before ++ 2 :: after /\
    ~ In 2 before /\
    removeChild 1 2 Scene.scene = Ok tt s' /\
    _children (st_heap s' 1) = before ++ after /\
    _parent (st_heap s' 2) = None /\
    st_trace s' = st_trace Scene.scene /\
    (NoDup (_children (st_heap Scene.scene 1)) -> ~ In 2 (_children (st_heap s' 1))).
Proof.
  apply (removeChild_detaches 1 2 Scene.scene); simpl; auto.
Defined.

Lemma addChild_removeChild_witness :
  exists s',
    removeChild 0 3 (final (addChild 0 3 Scene.scene)) = Ok tt s' /\
    _children (st_heap s' 0) = [1] /\
    _parent (st_heap s' 3) = None /\
    (forall n, n <> 0 -> n <> 3 -> st_heap s' n = st_heap Scene.scene n) /\
    st_trace s' = st_trace Scene.scene.
Proof.
  apply (addChild_removeChild 0 3 Scene.scene).
  simpl; intros [E | []]; discriminate.
Defined.

Lemma addChild_leaves_former_parent_witness :
  let s' := final (addChild 0 2 Scene.scene) in
  _children (st_heap s' 1) = [2; 3] /\
  _children (st_heap s' 0) = [1; 2] /\
  _parent (st_heap s' 2) = Some 0.
Proof.
  apply (addChild_leaves_former_parent 0 1 2 Scene.scene).
  - discriminate.
  - simpl; auto.
  - simpl; intros [E | []]; discriminate.
Defined.

Lemma getTree_snapshot_witness :
  getTree 3 0 Scene.scene
  = Ok (mkTree "Entity" [mkTree "Entity" [mkTree "Entity" []; mkTree "Entity" []]])
       Scene.scene.
Proof.
  apply (getTree_snapshot 2 3 0 Scene.scene); [reflexivity | lia].
Defined.

Lemma self_child_ancestor :
  ancestor (st_heap (run [AddChild 0 0] fresh_state)) 0 0.
Proof. exists 0; split; [simpl; auto | constructor]. Defined.

Lemma Init_on_cycle_overflows_witness :
  exists s', Init 5 0 (run [AddChild 0 0] fresh_state) = RangeError s'.
Proof.
  exact (Init_on_cycle_overflows 0 (run [AddChild 0 0] fresh_state) 5 self_child_ancestor).
Defined.

Lemma getTree_on_cycle_overflows_witness :
  exists s', getTree 5 0 (run [AddChild 0 0] fresh_state) = RangeError s'.
Proof.
  exact (getTree_on_cycle_overflows 0 (run [AddChild 0 0] fresh_state) 5
           self_child_ancestor).
Defined.

Lemma scene_leaf_children : leaf_children (st_heap Scene.scene) 1.
Proof. intros c; simpl; intros [<- | [<- | []]]; split; reflexivity. Defined.

Lemma nodup_pair (a b : loc) : a <> b -> NoDup [a; b].
Proof.
  intros H; constructor; [intros [E | []]; now apply H|].
  constructor; [intros [] | constructor].
Defined.

Lemma Destroy_visits_every_other_child_witness :
  exists h',
    Destroy 2 1 (mkState (st_heap Scene.scene) [])
    = Ok tt (mkState h' [CompDestroy Scene.c1; CompDestroy Scene.c2]) /\
    _children (h' 1) = [3] /\
    (forall c, In c [2] -> _parent (h' c) = None) /\
    (forall c, In c [3] -> h' c = st_heap Scene.scene c) /\
    _parent (h' 1) = None /\
    _children (h' 0) = [].
Proof.
  apply (Destroy_visits_every_other_child 0 1 0 (st_heap Scene.scene) [] [] []).
  - exact scene_leaf_children.
  - apply nodup_pair; discriminate.
  - reflexivity.
  - reflexivity.
  - intros [].
Defined.

Lemma Destroy_root_throws_witness :
  exists h',
    Destroy 2 0 (mkState (st_heap three_children) [])
    = TypeError (mkState h' []) /\
    _children (h' 0) = [2] /\
    (forall c, In c [1; 3] -> _parent (h' c) = None).
Proof.
  apply (Destroy_root_throws 0 0 (st_heap three_children) []).
  - intros c; simpl; intros [<- | [<- | [<- | []]]]; split; reflexivity.
  - constructor; [simpl; intros [E | [E | []]]; discriminate|].
    apply nodup_pair; discriminate.
  - reflexivity.
Defined.

Lemma Legacy_removeChild_clears_next_witness :
  exists s',
    Legacy.removeChild 1 2 Scene.scene = Ok tt s' /\
    _children (st_heap s' 1) = [3] /\
    _parent (st_heap s' 3) = None /\
    (2 <> 3 -> _parent (st_heap s' 2) = Some 1).
Proof.
  apply (Legacy_removeChild_clears_next 1 2 3 Scene.scene [] []);
    [reflexivity | intros []].
Defined.

Lemma Legacy_removeChild_last_throws_witness :
  Legacy.removeChild 1 3 Scene.scene
  = TypeError (mkState (upd (st_heap Scene.scene) 1
                          (set_children (st_heap Scene.scene 1) [2]))
                       (st_trace Scene.scene)).
Proof.
  apply (Legacy_removeChild_last_throws 1 3 Scene.scene [2]);
    [reflexivity | simpl; intros [E | []]; discriminate].
Defined.

Lemma Legacy_removeChild_absent_throws_witness :
  Legacy.removeChild 0 2 Scene.scene = TypeError Scene.scene.
Proof.
  apply (Legacy_removeChild_absent_throws 0 2 Scene.scene).
  simpl; intros [E | []]; discriminate.
Defined.
